(** * react-safe-query: router composition and cache-key namespacing

    A shallow embedding of [src/index.ts]: the operation wrappers [query] and
    [mutation], the query-key middleware, [createRouter] and the context
    generator built by [createContext].

    The external engine (@tanstack/react-query) is not part of the
    repository.  A call of one of its hooks is represented by the
    configuration object the library hands over; the cache behind the query
    client is an interface ([QueryClient]) whose laws are assumptions. *)

From Stdlib Require Import Ascii DecimalString DecimalN.
From stdpp Require Import gmap strings list fin_maps.

Set Warnings "-register-all".

(** ** JavaScript values *)

(** The values that flow through the library untouched: arguments, results,
    errors, cached data.  Arrays are needed for query keys. *)
Inductive jsvalue : Type :=
| VUndefined
| VNull
| VBool (b : bool)
| VNum (n : Z)
| VStr (s : string)
| VArray (elems : list jsvalue).

(** What [await f(x)] yields once it settles: the resolved value, or the
    failure that was thrown or rejected. *)
Inductive outcome : Type :=
| Resolved (result : jsvalue)
| Rejected (error : jsvalue).

(** [RouteFunction<TArgs, TResult>] of [types.ts]. *)
Definition RouteFunction : Type := jsvalue -> outcome.

(** A user callback either returns or throws. *)
Inductive completion : Type :=
| Returns
| Throws (error : jsvalue).

(** [QueryOptions<T>] of [types.ts]: the three lifecycle callbacks, each
    optional, and the remaining engine options, which the library only
    spreads into the configuration. *)
Record QueryOptions : Type := mkQueryOptions {
  onError : option (jsvalue -> completion);
  onSuccess : option (jsvalue -> completion);
  onSettled : option (jsvalue -> jsvalue -> completion);
  query_rest : list (string * jsvalue)
}.

(** ** Observable callback invocations *)

Inductive event : Type :=
| CallQueryFn (args : jsvalue)
| CallOnSuccess (data : jsvalue)
| CallOnError (error : jsvalue)
| CallOnSettled (data error : jsvalue).

(** A computation of the fetcher body: the callbacks invoked so far, in
    order, and either a value or the exception in flight. *)
Definition Run (A : Type) : Type := list event * (A + jsvalue).

Definition ret {A} (a : A) : Run A := ([], inl a).
Definition throw {A} (e : jsvalue) : Run A := ([], inr e).
Definition emit (ev : event) : Run unit := ([ev], inl tt).

Definition bind {A B} (m : Run A) (k : A -> Run B) : Run B :=
  match m with
  | (t, inl a) => let '(t', r) := k a in (t ++ t', r)
  | (t, inr e) => (t, inr e)
  end.

(** [try { body } catch (error) { handler }] *)
Definition try_catch {A} (body : Run A) (handler : jsvalue -> Run A) : Run A :=
  match body with
  | (t, inl a) => (t, inl a)
  | (t, inr e) => let '(t', r) := handler e in (t ++ t', r)
  end.

#[global] Instance Run_ret : MRet Run := @ret.
#[global] Instance Run_bind : MBind Run := fun A B k m => bind m k.

Definition of_completion (c : completion) : Run unit :=
  match c with
  | Returns => ret tt
  | Throws e => throw e
  end.

Definition of_outcome (o : outcome) : Run jsvalue :=
  match o with
  | Resolved v => ret v
  | Rejected e => throw e
  end.

Definition to_outcome (r : jsvalue + jsvalue) : outcome :=
  match r with
  | inl v => Resolved v
  | inr e => Rejected e
  end.

(** [options?.onSuccess && options.onSuccess(result)] *)
Definition call_onSuccess (options : option QueryOptions) (result : jsvalue) : Run unit :=
  match options with
  | Some o =>
      match onSuccess o with
      | Some f => emit (CallOnSuccess result);; of_completion (f result)
      | None => ret tt
      end
  | None => ret tt
  end.

(** [options?.onError && options.onError(error)] *)
Definition call_onError (options : option QueryOptions) (error : jsvalue) : Run unit :=
  match options with
  | Some o =>
      match onError o with
      | Some f => emit (CallOnError error);; of_completion (f error)
      | None => ret tt
      end
  | None => ret tt
  end.

(** [options?.onSettled && options.onSettled(data, error)] *)
Definition call_onSettled (options : option QueryOptions) (data error : jsvalue) : Run unit :=
  match options with
  | Some o =>
      match onSettled o with
      | Some f => emit (CallOnSettled data error);; of_completion (f data error)
      | None => ret tt
      end
  | None => ret tt
  end.

(** The [queryFn] handed to the engine by [query] (index.ts 29-40); one run
    is one attempt. *)
Definition query_attempt (queryFn : RouteFunction) (args : jsvalue)
    (options : option QueryOptions) : Run jsvalue :=
  try_catch
    (result ← (emit (CallQueryFn args);; of_outcome (queryFn args));
     call_onSuccess options result;;
     call_onSettled options result VNull;;
     ret result)
    (fun error =>
       call_onError options error;;
       call_onSettled options VUndefined error;;
       throw error).

(** ** Configurations handed to the engine *)

(** The object given to [useTanStackQuery]:
    [{...(options || {}), queryKey: [_key, args], queryFn: async () => ...}]. *)
Record QueryConfig : Type := mkQueryConfig {
  queryKey : jsvalue;
  queryFn : Run jsvalue;
  query_spread : option QueryOptions
}.

(** [MutationOptions] of [types.ts]; nothing in it is read by the library. *)
Definition MutationOptions : Type := list (string * jsvalue).

(** The object given to [useTanStackMutation]:
    [{...options, mutationFn: async (args) => ...}]. *)
Record MutationConfig : Type := mkMutationConfig {
  mutationFn : jsvalue -> outcome;
  mutation_spread : option MutationOptions
}.

(** ** Functions stored in operation objects *)

(** The functions that can occupy the [useQuery] slot of a Query object:
    the closure built by [query] (three parameters), or the arrow installed
    by the middleware (two parameters, closed over the previous occupant
    and the prefix [routerId + '/' + key]). *)
Inductive UseQuery : Type :=
| QueryClosure (queryFn : RouteFunction)
| KeyMiddleware (originalUseQuery : UseQuery) (prefix : string).

(** Calling a [useQuery] function with three actual arguments.  The
    middleware arrow declares [(args, options)] only, so a third argument
    passed to it is not bound to anything. *)
Fixpoint call_useQuery (f : UseQuery) (args : jsvalue)
    (options : option QueryOptions) (_key : jsvalue) : QueryConfig :=
  match f with
  | QueryClosure fn =>
      {| queryKey := VArray [_key; args];
         queryFn := query_attempt fn args options;
         query_spread := options |}
  | KeyMiddleware originalUseQuery prefix =>
      call_useQuery originalUseQuery args options (VStr prefix)
  end.

(** [async (args) => { const res = await mutationFn(args); return res; }] *)
Definition mutation_attempt (fn : RouteFunction) (args : jsvalue) : outcome :=
  to_outcome (snd (res ← of_outcome (fn args); ret res)).

(** The closure built by [mutation] (index.ts 48-55). *)
Inductive UseMutation : Type :=
| MutationClosure (mutationFn : RouteFunction).

Definition call_useMutation (f : UseMutation) (options : option MutationOptions)
    : MutationConfig :=
  match f with
  | MutationClosure fn =>
      {| mutationFn := mutation_attempt fn;
         mutation_spread := options |}
  end.

(** ** Operation objects and the store *)

(** Object references. *)
Abbreviation loc := nat (only parsing).

(** The objects returned by [query] and [mutation].  The [useQuery] slot of
    a Query object is assigned to by the middleware, so operation objects
    live in a store and are held by reference. *)
Inductive object : Type :=
| QueryObject (useQuery : UseQuery)
| MutationObject (useMutation : UseMutation).

(** A value of a [Routes] object: an operation, by reference, or a Router
    Instance [{...routes, useContext: createContext(routes, routerId)}].
    No statement of the library assigns into a Router Instance, so it is
    represented by the two values its context closure captured.  A [Routes]
    object is the list of its [Object.entries]. *)
Inductive RouteValue : Type :=
| Ref (l : loc)
| Router (routes : list (string * RouteValue)) (routerId : string).

Abbreviation Routes := (list (string * RouteValue)) (only parsing).

(** The module state: the operation objects and [let routerCount]. *)
Record state : Type := mkState {
  heap : gmap loc object;
  routerCount : N
}.

(** State at module load: [let routerCount = 0], no object allocated. *)
Definition initial_state : state := {| heap := ∅; routerCount := 0 |}.

(** [n + ''] for a non-negative integer [n]: its decimal digits.  The
    counter is a JavaScript number, which holds every integer below [2^53]
    exactly; it is modelled by [N], with [++] as the successor. *)
Definition number_to_string (n : N) : string :=
  NilEmpty.string_of_uint (N.to_uint n).

(** [routerId + '/' + key] *)
Definition fullKey (routerId key : string) : string :=
  routerId +:+ "/" +:+ key.

(** [query(queryFn)] (index.ts 19-43): a new object [{ useQuery }]. *)
Definition query (fn : RouteFunction) (σ : state) : RouteValue * state :=
  let l := fresh (dom (heap σ)) in
  (Ref l, {| heap := <[l := QueryObject (QueryClosure fn)]> (heap σ);
             routerCount := routerCount σ |}).

(** [mutation(mutationFn)] (index.ts 45-57): a new object [{ useMutation }]. *)
Definition mutation (fn : RouteFunction) (σ : state) : RouteValue * state :=
  let l := fresh (dom (heap σ)) in
  (Ref l, {| heap := <[l := MutationObject (MutationClosure fn)]> (heap σ);
             routerCount := routerCount σ |}).

(** ** Query-key middleware (index.ts 85-92) *)

(** One iteration of the [forEach].  The test
    ['useQuery' in value && typeof value.useQuery === 'function'] holds of
    Query objects only: a Mutation object has no such property, and a
    Router Instance can only hold an operation or a router under that
    name, never a function. *)
Definition middleware_entry (routerId : string) (h : gmap loc object)
    (entry : string * RouteValue) : gmap loc object :=
  let '(key, value) := entry in
  match value with
  | Ref l =>
      match h !! l with
      | Some (QueryObject originalUseQuery) =>
          <[l := QueryObject (KeyMiddleware originalUseQuery (fullKey routerId key))]> h
      | _ => h
      end
  | Router _ _ => h
  end.

Definition applyQueryKeyMiddleware (routes : Routes) (routerId : string)
    (h : gmap loc object) : gmap loc object :=
  foldl (middleware_entry routerId) h routes.

(** ** Router composition (index.ts 94-103) *)

Definition createRouter (routes : Routes) (σ : state) : RouteValue * state :=
  let routerId := number_to_string (routerCount σ) in
  let count := N.succ (routerCount σ) in
  let h := applyQueryKeyMiddleware routes routerId (heap σ) in
  (Router routes routerId, {| heap := h; routerCount := count |}).

(** ** Property access and invocation *)

(** [routes[key]] on a [Routes] object, for the properties the object has
    itself, which are those [Object.entries] lists. *)
Fixpoint get (routes : Routes) (key : string) : option RouteValue :=
  match routes with
  | [] => None
  | (k, v) :: rest => if decide (k = key) then Some v else get rest key
  end.

(** [router[key]] on a Router Instance, when it is a route value: the
    spread copies the definition's entries, and the property written after
    it replaces an entry called [useContext] by the context function. *)
Definition router_get (router : RouteValue) (key : string) : option RouteValue :=
  match router with
  | Router routes _ =>
      if decide (key = "useContext") then None else get routes key
  | Ref _ => None
  end.

(** The public call [value.useQuery(args, options)]: two actual arguments,
    so the third parameter of the callee, if it has one, is [undefined]. *)
Definition useQuery (h : gmap loc object) (value : RouteValue) (args : jsvalue)
    (options : option QueryOptions) : option QueryConfig :=
  match value with
  | Ref l =>
      match h !! l with
      | Some (QueryObject f) => Some (call_useQuery f args options VUndefined)
      | _ => None
      end
  | Router _ _ => None
  end.

(** [value.useMutation(options)] *)
Definition useMutation (h : gmap loc object) (value : RouteValue)
    (options : option MutationOptions) : option MutationConfig :=
  match value with
  | Ref l =>
      match h !! l with
      | Some (MutationObject f) => Some (call_useMutation f options)
      | _ => None
      end
  | Router _ _ => None
  end.

(** ** Context tree (index.ts 60-81) *)

(** [QueryFilters] of the engine: the [queryKey] field, [undefined] when
    absent, and the fields the library only spreads. *)
Record QueryFilters : Type := mkQueryFilters {
  filter_queryKey : jsvalue;
  filter_rest : list (string * jsvalue)
}.

(** The calls the accessors make on the query client. *)
Inductive ClientCall : Type :=
| getQueryData (key : jsvalue)
| setQueryData (key : jsvalue) (data : jsvalue)
| cancelQueries (filters : QueryFilters)
| invalidateQueries (filters : QueryFilters).

(** [{ ...filters, queryKey: [baseKey, filters?.queryKey] }] *)
Definition scoped_filters (baseKey : string) (filters : option QueryFilters)
    : QueryFilters :=
  match filters with
  | Some f =>
      {| filter_queryKey := VArray [VStr baseKey; filter_queryKey f];
         filter_rest := filter_rest f |}
  | None =>
      {| filter_queryKey := VArray [VStr baseKey; VUndefined];
         filter_rest := [] |}
  end.

(** The four closures of a Query leaf's context entry, over [baseKey]. *)
Definition getData (baseKey : string) (queryKey : jsvalue) : ClientCall :=
  getQueryData (VArray [VStr baseKey; queryKey]).
Definition setData (baseKey : string) (queryKey data : jsvalue) : ClientCall :=
  setQueryData (VArray [VStr baseKey; queryKey]) data.
Definition cancel (baseKey : string) (filters : option QueryFilters) : ClientCall :=
  cancelQueries (scoped_filters baseKey filters).
Definition invalidate (baseKey : string) (filters : option QueryFilters) : ClientCall :=
  invalidateQueries (scoped_filters baseKey filters).

(** A value held by a context object: the accessor object of a Query leaf,
    determined by its [baseKey], or the context object of a nested router,
    given by its own properties, in the order of their creation, and by
    the object that an assignment to [__proto__] made its prototype, if
    there was one. *)
Inductive ContextNode : Type :=
| Accessors (baseKey : string)
| SubContext (own : list (string * ContextNode)) (proto : option ContextNode).

(** A context object, [ContextValue<T>]: its own properties and the
    prototype it was given, [None] standing for [Object.prototype]. *)
Record Context : Type := mkContext {
  own_entries : list (string * ContextNode);
  prototype : option ContextNode
}.

(** The context object as a value held by another context. *)
Definition context_node (context : Context) : ContextNode :=
  SubContext (own_entries context) (prototype context).

(** [const context = {}] *)
Definition empty_context : Context :=
  {| own_entries := []; prototype := None |}.

(** The own property [key] of an object. *)
Fixpoint own_get (own : list (string * ContextNode)) (key : string)
    : option ContextNode :=
  match own with
  | [] => None
  | (k, node) :: rest => if decide (k = key) then Some node else own_get rest key
  end.

(** Writing the own property [key]: an existing property takes the value
    and keeps its place, a new one comes last. *)
Fixpoint put (key : string) (node : ContextNode)
    (own : list (string * ContextNode)) : list (string * ContextNode) :=
  match own with
  | [] => [(key, node)]
  | (k, n) :: rest =>
      if decide (k = key) then (k, node) :: rest else (k, n) :: put key node rest
  end.

(** [context[key] = node].  The values assigned are objects, and no
    context has an own property [__proto__]; so for the key [__proto__]
    the assignment runs the setter inherited from [Object.prototype],
    which makes [node] the prototype of the context, and for every other
    key it writes an own property. *)
Definition assign (context : Context) (entry : string * ContextNode) : Context :=
  let '(key, node) := entry in
  if decide (key = "__proto__")
  then {| own_entries := own_entries context; prototype := Some node |}
  else {| own_entries := put key node (own_entries context);
          prototype := prototype context |}.

(** The value, if any, that one iteration of the [forEach] of
    [createContext(routes, routerId)] assigns to [context[key]] for the
    entry [(key, value)].  For a Router Instance it is
    [value.useContext()], that is the context object built by the loop of
    the instance's own closure over the [routes] and [routerId] it
    captured. *)
Fixpoint context_entry (h : gmap loc object) (routerId key : string)
    (value : RouteValue) {struct value} : option ContextNode :=
  match value with
  | Ref l =>
      match h !! l with
      | Some (QueryObject _) => Some (Accessors (fullKey routerId key))
      | _ => None
      end
  | Router routes' routerId' =>
      Some (context_node (foldl assign empty_context
        ((fix each (entries : Routes) : list (string * ContextNode) :=
            match entries with
            | [] => []
            | (k, v) :: rest =>
                match context_entry h routerId' k v with
                | Some node => (k, node) :: each rest
                | None => each rest
                end
            end) routes')))
  end.

(** The assignments [context[key] = node] that the [forEach] of
    [createContext(routes, routerId)] performs, in order. *)
Definition assignments (h : gmap loc object) (routes : Routes)
    (routerId : string) : list (string * ContextNode) :=
  omap (fun '(k, v) => pair k <$> context_entry h routerId k v) routes.

(** The function returned by [createContext(routes, routerId)], called:
    the object [{}] after the assignments of the loop. *)
Definition createContext (h : gmap loc object) (routes : Routes)
    (routerId : string) : Context :=
  foldl assign empty_context (assignments h routes routerId).

(** [router.useContext()] *)
Definition useContext (h : gmap loc object) (router : RouteValue)
    : option Context :=
  match router with
  | Router routes routerId => Some (createContext h routes routerId)
  | Ref _ => None
  end.

(** What the context object itself holds under [key]: its own property of
    that name or, for [__proto__], the prototype an assignment gave it
    (the object that [context.__proto__] then answers).  This is the value
    last assigned to [context[key]]; what the context inherits from its
    prototype is not looked at here, see [context_read]. *)
Definition context_get (context : Context) (key : string) : option ContextNode :=
  if decide (key = "__proto__") then prototype context
  else own_get (own_entries context) key.

(** The result of a property read on a context object, as far as the
    library made it: an accessor object or a nested context, one of the
    four closures of the accessor over [baseKey], or anything else
    ([undefined], or what [Object.prototype] provides). *)
Inductive Read : Type :=
| ReadNode (node : ContextNode)
| ReadMember (baseKey member : string)
| ReadOther.

(** The properties of an accessor object (index.ts 69-74). *)
Definition accessor_members : list string :=
  ["getData"; "setData"; "cancel"; "invalidate"].

(** Looking [key], other than [__proto__], up in an object and then along
    its prototype chain. *)
Fixpoint read_node (node : ContextNode) (key : string) : Read :=
  match node with
  | Accessors baseKey =>
      if decide (key ∈ accessor_members) then ReadMember baseKey key else ReadOther
  | SubContext own proto =>
      match own_get own key with
      | Some found => ReadNode found
      | None =>
          match proto with
          | Some p => read_node p key
          | None => ReadOther
          end
      end
  end.

(** [context[key]], the property read with inheritance.  No object of a
    chain has an own property [__proto__], so that key reaches the
    accessor of [Object.prototype], which answers the prototype of the
    context read from. *)
Definition context_read (context : Context) (key : string) : Read :=
  if decide (key = "__proto__")
  then match prototype context with
       | Some p => ReadNode p
       | None => ReadOther
       end
  else read_node (context_node context) key.

(** ** The query client *)

(** The cache behind [useQueryClient()], as far as the accessors use it. *)
Class QueryClient (cache : Type) : Type := {
  client_get : cache -> jsvalue -> jsvalue;
  client_set : cache -> jsvalue -> jsvalue -> cache;
  client_cancel : cache -> QueryFilters -> cache;
  client_invalidate : cache -> QueryFilters -> cache
}.

(** Performing one call: the value returned and the cache afterwards. *)
Definition perform {cache} `{QueryClient cache} (c : ClientCall) (s : cache)
    : jsvalue * cache :=
  match c with
  | getQueryData key => (client_get s key, s)
  | setQueryData key data => (VUndefined, client_set s key data)
  | cancelQueries filters => (VUndefined, client_cancel s filters)
  | invalidateQueries filters => (VUndefined, client_invalidate s filters)
  end.

(** What the library relies on: data written under a key is what a read of
    that key returns. *)
Definition stores_data (cache : Type) `{QueryClient cache} : Prop :=
  forall (s : cache) (key data : jsvalue), client_get (client_set s key data) key = data.

(** Structural equality of values, used by the reference cache below. *)
Fixpoint jsvalue_eqb (a b : jsvalue) {struct a} : bool :=
  match a, b with
  | VUndefined, VUndefined => true
  | VNull, VNull => true
  | VBool x, VBool y => bool_decide (x = y)
  | VNum x, VNum y => bool_decide (x = y)
  | VStr x, VStr y => bool_decide (x = y)
  | VArray xs, VArray ys =>
      (fix all2 (xs ys : list jsvalue) {struct xs} : bool :=
         match xs, ys with
         | [], [] => true
         | x :: xs', y :: ys' => jsvalue_eqb x y && all2 xs' ys'
         | _, _ => false
         end) xs ys
  | _, _ => false
  end.

(** Modelled from the spec: the external cache engine of section 6, reduced
    to [getQueryData(key) -> Result | absent] and
    [setQueryData(key, data) -> void]: a list of the entries written, the
    most recent first; cancelling and invalidating leave stored data alone. *)
Fixpoint entries_get (s : list (jsvalue * jsvalue)) (key : jsvalue) : jsvalue :=
  match s with
  | [] => VUndefined
  | (k, d) :: rest => if jsvalue_eqb k key then d else entries_get rest key
  end.

#[global] Instance entries_client : QueryClient (list (jsvalue * jsvalue)) := {
  client_get := entries_get;
  client_set s key data := (key, data) :: s;
  client_cancel s _ := s;
  client_invalidate s _ := s
}.

(** ** Programs over the module *)

(** The calls of the public API that change the module state. *)
Inductive call : Type :=
| CallQuery (fn : RouteFunction)
| CallMutation (fn : RouteFunction)
| CallCreateRouter (routes : Routes).

Definition step (c : call) (σ : state) : RouteValue * state :=
  match c with
  | CallQuery fn => query fn σ
  | CallMutation fn => mutation fn σ
  | CallCreateRouter routes => createRouter routes σ
  end.

(** The calls in order; the values they return and the final state. *)
Fixpoint run (calls : list call) (σ : state) : list RouteValue * state :=
  match calls with
  | [] => ([], σ)
  | c :: rest =>
      let '(v, σ1) := step c σ in
      let '(vs, σ2) := run rest σ1 in
      (v :: vs, σ2)
  end.

(** The definitions composed by a program, in call order. *)
Definition compositions (calls : list call) : list Routes :=
  omap (fun c => match c with CallCreateRouter routes => Some routes | _ => None end) calls.

(** The namespace ids carried by the Router Instances among some values. *)
Definition router_ids (values : list RouteValue) : list string :=
  omap (fun v => match v with Router _ routerId => Some routerId | Ref _ => None end) values.

(** The operations a definition holds directly. *)
Definition direct_refs (routes : Routes) : list loc :=
  omap (fun '(_, v) => match v with Ref l => Some l | Router _ _ => None end) routes.

(** The prefix slot of an emitted key [[_key, args]]. *)
Definition key_prefix (queryKey : jsvalue) : option jsvalue :=
  match queryKey with
  | VArray [p; _] => Some p
  | _ => None
  end.

(** ** Notions used in the statements *)

(** No character of the string is the separator. *)
Fixpoint slash_free (s : string) : Prop :=
  match s with
  | EmptyString => True
  | String c rest => c <> "/"%char /\ slash_free rest
  end.

(** The user function at the bottom of a chain of middleware arrows. *)
Fixpoint fetcher (f : UseQuery) : RouteFunction :=
  match f with
  | QueryClosure fn => fn
  | KeyMiddleware g _ => fetcher g
  end.

(** The prefix a chain binds: that of its innermost arrow, the only one
    whose third argument reaches a function with a third parameter. *)
Fixpoint bound_prefix (f : UseQuery) : option string :=
  match f with
  | QueryClosure _ => None
  | KeyMiddleware g p =>
      match bound_prefix g with
      | Some q => Some q
      | None => Some p
      end
  end.

(** The name under which a definition first lists the object [l]. *)
Fixpoint first_name (routes : Routes) (l : loc) : option string :=
  match routes with
  | [] => None
  | (key, Ref l') :: rest =>
      if decide (l' = l) then Some key else first_name rest l
  | (_, Router _ _) :: rest => first_name rest l
  end.

(** The prefix under which a sequence of compositions, the first of them
    taking the id [count], first lists the object [l]. *)
Fixpoint first_binding (definitions : list Routes) (count : N) (l : loc)
    : option string :=
  match definitions with
  | [] => None
  | routes :: rest =>
      match first_name routes l with
      | Some key => Some (fullKey (number_to_string count) key)
      | None => first_binding rest (N.succ count) l
      end
  end.

(** Every callback of the options returns. *)
Definition callbacks_return (options : option QueryOptions) : Prop :=
  match options with
  | None => True
  | Some o =>
      (forall f, onSuccess o = Some f -> forall d, f d = Returns) /\
      (forall f, onError o = Some f -> forall e, f e = Returns) /\
      (forall f, onSettled o = Some f -> forall d e, f d e = Returns)
  end.

(** The events of [options?.cb && options.cb(...)] for a callback slot. *)
Definition fired {F} (slot : option F) (ev : event) : list event :=
  match slot with
  | Some _ => [ev]
  | None => []
  end.

Definition slot {F} (options : option QueryOptions)
    (field : QueryOptions -> option F) : option F :=
  options ≫= field.

(** The query key a client call addresses. *)
Definition call_key (c : ClientCall) : jsvalue :=
  match c with
  | getQueryData key => key
  | setQueryData key _ => key
  | cancelQueries filters => filter_queryKey filters
  | invalidateQueries filters => filter_queryKey filters
  end.

(** The operations reachable from a route value, nested routers included. *)
Fixpoint leaves (value : RouteValue) : list loc :=
  match value with
  | Ref l => [l]
  | Router routes _ =>
      (fix each (entries : Routes) : list loc :=
         match entries with
         | [] => []
         | (_, v) :: rest => leaves v ++ each rest
         end) routes
  end.

(** The object passes the test of the middleware and of the context
    generator: it has a function under [useQuery]. *)
Definition has_useQuery (o : option object) : bool :=
  match o with
  | Some (QueryObject _) => true
  | _ => false
  end.

(** Some composition of the program lists the value directly. *)
Definition composed_by (calls : list call) (value : RouteValue) : Prop :=
  exists routes key, routes ∈ compositions calls /\ (key, value) ∈ routes.

(** ** Notions used for the further properties *)

(** The event is a call of the user's fetcher. *)
Definition is_fetch (ev : event) : bool :=
  match ev with
  | CallQueryFn _ => true
  | _ => false
  end.

(** [value.useQuery(args, options, _key)] with the third argument that the
    type [QueryReturnType] of [types.ts] lets a caller pass. *)
Definition useQuery_with_key (h : gmap loc object) (value : RouteValue)
    (args : jsvalue) (options : option QueryOptions) (_key : jsvalue)
    : option QueryConfig :=
  match value with
  | Ref l =>
      match h !! l with
      | Some (QueryObject f) => Some (call_useQuery f args options _key)
      | _ => None
      end
  | Router _ _ => None
  end.

(** The prefix the Query object at [l], if there is one, binds. *)
Definition emitted_prefix (h : gmap loc object) (l : loc) : option string :=
  match h !! l with
  | Some (QueryObject f) => bound_prefix f
  | _ => None
  end.

(** Every bound prefix was made from a counter value already used, and no
    two objects bind the same prefix. *)
Definition prefixes_unique (σ : state) : Prop :=
  (forall l p, emitted_prefix (heap σ) l = Some p ->
     exists c key, p = fullKey (number_to_string c) key /\ (c < routerCount σ)%N) /\
  (forall l1 l2 p, emitted_prefix (heap σ) l1 = Some p ->
     emitted_prefix (heap σ) l2 = Some p -> l1 = l2).

(** Every definition the program composes has pairwise different names, as
    the [Object.entries] of an object have. *)
Definition distinct_names (calls : list call) : Prop :=
  forall routes, routes ∈ compositions calls -> NoDup routes.*1.

(** A second law of the cache: a write leaves the data under every other
    key as it was. *)
Definition keeps_others (cache : Type) `{QueryClient cache} : Prop :=
  forall (s : cache) (key key' data : jsvalue),
    key <> key' -> client_get (client_set s key data) key' = client_get s key'.

(** [context.k1.k2. ... .kn], each step a property read. *)
Fixpoint context_at (context : Context) (path : list string) : Read :=
  match path with
  | [] => ReadOther
  | k :: rest =>
      match rest with
      | [] => context_read context k
      | _ :: _ =>
          match context_read context k with
          | ReadNode (SubContext own proto) =>
              context_at {| own_entries := own; prototype := proto |} rest
          | _ => ReadOther
          end
      end
  end.

(** [router_at routes routerId path routes' routerId']: from the router
    made of [routes] and [routerId], the names of [path] lead through
    nested Router Instances to the one made of [routes'] and [routerId'];
    between two names, and before and after them, the way may pass to a
    nested instance listed as [__proto__], whose context the context of
    the router above inherits from. *)
Inductive router_at : Routes -> string -> list string -> Routes -> string -> Prop :=
| router_at_here routes routerId :
    router_at routes routerId [] routes routerId
| router_at_step routes routerId k nested nestedId path routes' routerId' :
    (k, Router nested nestedId) ∈ routes ->
    router_at nested nestedId path routes' routerId' ->
    router_at routes routerId (k :: path) routes' routerId'
| router_at_inherited routes routerId nested nestedId path routes' routerId' :
    ("__proto__", Router nested nestedId) ∈ routes ->
    router_at nested nestedId path routes' routerId' ->
    router_at routes routerId path routes' routerId'.

(** The value the assignments of a loop leave under [key]: the one
    assigned last. *)
Fixpoint last_assigned (entries : list (string * ContextNode)) (key : string)
    : option ContextNode :=
  match entries with
  | [] => None
  | (k, node) :: rest =>
      match last_assigned rest key with
      | Some later => Some later
      | None => if decide (k = key) then Some node else None
      end
  end.

(** Every definition the program composes lists only operations that
    exist when it is composed, as a definition written in the language
    does. *)
Fixpoint well_scoped (calls : list call) (σ : state) : Prop :=
  match calls with
  | [] => True
  | c :: rest =>
      match c with
      | CallCreateRouter routes =>
          forall l, l ∈ direct_refs routes -> is_Some (heap σ !! l)
      | _ => True
      end /\ well_scoped rest (step c σ).2
  end.

(** The statement that composing [routes] in [σ] makes the leaf listed as
    [key] emit the key [[routerId/key, args]] both through the definition
    and through the returned instance. *)
Definition emits_namespaced_key (routes : Routes) (σ : state) (key : string)
    (args : jsvalue) (options : option QueryOptions) : Prop :=
  let router := (createRouter routes σ).1 in
  let h := heap (createRouter routes σ).2 in
  let namespaced :=
    Some (VArray [VStr (fullKey (number_to_string (routerCount σ)) key); args]) in
  queryKey <$> (get routes key ≫= fun leaf => useQuery h leaf args options)
    = namespaced /\
  queryKey <$> (router_get router key ≫= fun leaf => useQuery h leaf args options)
    = namespaced.


(** * Properties *)

(** ** Decimal ids and prefixes *)

Lemma string_of_uint_slash_free d : slash_free (NilEmpty.string_of_uint d).
Proof. induction d; simpl; (split; [discriminate | assumption]) || exact I. Qed.

Lemma number_to_string_slash_free n : slash_free (number_to_string n).
Proof. apply string_of_uint_slash_free. Qed.

Lemma number_to_string_inj n m :
  number_to_string n = number_to_string m -> n = m.
Proof.
  unfold number_to_string. intros E.
  assert (Some (N.to_uint n) = Some (N.to_uint m)) as [= E'].
  { rewrite <- !NilEmpty.usu. by rewrite E. }
  rewrite <- (DecimalN.Unsigned.of_to n), <- (DecimalN.Unsigned.of_to m).
  by rewrite E'.
Qed.

(** The first separator of a prefix ends the id, however the name
    looks. *)
Lemma fullKey_split a b x y :
  slash_free a -> slash_free b ->
  fullKey a x = fullKey b y -> a = b /\ x = y.
Proof.
  unfold fullKey. revert b.
  induction a as [|c a IH]; intros [|d b]; simpl; intros Ha Hb E.
  - by inversion E.
  - inversion E; subst. by destruct Hb as [[] _].
  - inversion E; subst. by destruct Ha as [[] _].
  - inversion E; subst.
    destruct (IH b) as [-> ->]; [tauto | tauto | assumption | done].
Qed.

Lemma fullKey_inj n m x y :
  fullKey (number_to_string n) x = fullKey (number_to_string m) y ->
  n = m /\ x = y.
Proof.
  intros E. apply fullKey_split in E as [E ->];
    auto using number_to_string_slash_free.
  by apply number_to_string_inj in E.
Qed.

(** ** What a [useQuery] slot emits *)

Lemma call_useQuery_spec f args options k :
  call_useQuery f args options k =
  {| queryKey := VArray [from_option VStr k (bound_prefix f); args];
     queryFn := query_attempt (fetcher f) args options;
     query_spread := options |}.
Proof.
  revert k. induction f as [fn | g IH p]; intros k; simpl; [done |].
  rewrite IH. by destruct (bound_prefix g).
Qed.

(** A middleware arrow ignores what it is passed as a key. *)
Lemma call_useQuery_wrapped g p args options k k' :
  call_useQuery (KeyMiddleware g p) args options k =
  call_useQuery (KeyMiddleware g p) args options k'.
Proof. reflexivity. Qed.

(** ** The middleware on the store *)

Lemma get_elem_of routes key v : get routes key = Some v -> (key, v) ∈ routes.
Proof.
  induction routes as [|[k v'] rest IH]; simpl; [done |].
  case_decide as E.
  - intros [= ->]. subst k. apply list_elem_of_here.
  - intros Hget. apply list_elem_of_further. by apply IH.
Qed.

Lemma first_name_None routes l :
  l ∉ direct_refs routes -> first_name routes l = None.
Proof.
  induction routes as [|[key [l'|rs rid]] rest IH]; simpl; intros Hl; [done | |].
  - case_decide as E; [subst; set_solver |]. apply IH. set_solver.
  - by apply IH.
Qed.

Lemma first_name_NoDup routes key l :
  NoDup (direct_refs routes) -> (key, Ref l) ∈ routes ->
  first_name routes l = Some key.
Proof.
  induction routes as [|[k [l'|rs rid]] rest IH]; simpl; intros Hnd Hin.
  - set_solver.
  - apply NoDup_cons in Hnd as [Hl' Hnd].
    apply elem_of_cons in Hin as [[= <- <-] | Hin]; [by rewrite decide_True |].
    case_decide as E; [| by apply IH]. subst l'.
    exfalso. apply Hl'. unfold direct_refs. apply list_elem_of_omap.
    by exists (key, Ref l).
  - apply elem_of_cons in Hin as [[=] | Hin]. by apply IH.
Qed.

Section Middleware.
Context (routerId : string).

#[local] Arguments middleware_entry : simpl never.

Lemma middleware_entry_other h entry l :
  (forall key, entry <> (key, Ref l)) ->
  middleware_entry routerId h entry !! l = h !! l.
Proof.
  destruct entry as [key [l'|rs rid]]; unfold middleware_entry; intros Hne; [| done].
  destruct (h !! l') as [[f|m]|] eqn:E; try done.
  rewrite lookup_insert_ne; [done |]. intros ->. by apply (Hne key).
Qed.

(** Frame: objects a definition does not list directly are untouched. *)
Lemma middleware_frame routes h l :
  l ∉ direct_refs routes ->
  applyQueryKeyMiddleware routes routerId h !! l = h !! l.
Proof.
  unfold applyQueryKeyMiddleware. revert h.
  induction routes as [|[key v] rest IH]; simpl; intros h Hl; [done |].
  rewrite IH.
  - apply middleware_entry_other. intros k [= -> ->]. set_solver.
  - destruct v; set_solver.
Qed.

(** Mutation objects are never written. *)
Lemma middleware_mutation routes h l m :
  h !! l = Some (MutationObject m) ->
  applyQueryKeyMiddleware routes routerId h !! l = Some (MutationObject m).
Proof.
  unfold applyQueryKeyMiddleware. revert h.
  induction routes as [|[key v] rest IH]; simpl; intros h Hm; [done |].
  apply IH. destruct v as [l'|rs rid]; unfold middleware_entry; [| done].
  destruct (h !! l') as [[f|m']|] eqn:E; try done.
  rewrite lookup_insert_ne; [done | congruence].
Qed.

(** A Query object stays one, around the same user function; the prefix
    it binds is the one it had or, if it had none, the one of the first
    name that lists it. *)
Lemma middleware_query routes h l f :
  h !! l = Some (QueryObject f) ->
  exists f',
    applyQueryKeyMiddleware routes routerId h !! l = Some (QueryObject f') /\
    fetcher f' = fetcher f /\
    bound_prefix f' =
      match bound_prefix f with
      | Some p => Some p
      | None => fullKey routerId <$> first_name routes l
      end.
Proof.
  unfold applyQueryKeyMiddleware. revert h f.
  induction routes as [|[key v] rest IH]; simpl; intros h f Hf.
  - exists f. by destruct (bound_prefix f).
  - destruct v as [l'|rs rid]; [| by apply IH].
    destruct (decide (l' = l)) as [-> | Hne].
    + unfold middleware_entry at 2. rewrite Hf.
      destruct (IH (<[l := QueryObject (KeyMiddleware f (fullKey routerId key))]> h)
                  (KeyMiddleware f (fullKey routerId key))) as (f' & E & Hfn & Hp).
      { apply lookup_insert_eq. }
      exists f'. split; [done |]. split; [done |].
      rewrite Hp. simpl. by destruct (bound_prefix f).
    + destruct (IH (middleware_entry routerId h (key, Ref l')) f) as (f' & E & Hfn & Hp).
      { rewrite middleware_entry_other; [done | congruence]. }
      exists f'. by repeat split.
Qed.

Lemma middleware_has_useQuery routes h l :
  has_useQuery (applyQueryKeyMiddleware routes routerId h !! l) =
  has_useQuery (h !! l).
Proof.
  destruct (h !! l) as [[f|m]|] eqn:E.
  - destruct (middleware_query routes h l f E) as (f' & -> & _). done.
  - by rewrite (middleware_mutation routes h l m E).
  - destruct (decide (l ∈ direct_refs routes)) as [Hin | Hout].
    + unfold applyQueryKeyMiddleware. revert h E.
      clear Hin. induction routes as [|[key v] rest IH]; intros h E; simpl.
      * by rewrite E.
      * apply IH. destruct v as [l'|rs rid]; unfold middleware_entry; [| done].
        destruct (h !! l') as [[f|m']|] eqn:E'; try done.
        rewrite lookup_insert_ne; [done | congruence].
    + by rewrite middleware_frame, E.
Qed.

End Middleware.

(** ** Programs *)

Lemma run_cons c calls σ :
  run (c :: calls) σ =
  ((step c σ).1 :: (run calls (step c σ).2).1, (run calls (step c σ).2).2).
Proof.
  simpl. destruct (step c σ) as [v σ1]. simpl.
  by destruct (run calls σ1) as [vs σ2].
Qed.

Lemma fresh_loc_ne (h : gmap loc object) l :
  is_Some (h !! l) -> fresh (dom h) <> l.
Proof.
  intros Hl E. apply (is_fresh (dom h)). rewrite E. by apply elem_of_dom.
Qed.

(** One call leaves a Mutation object as it is. *)
Lemma step_mutation c σ l m :
  heap σ !! l = Some (MutationObject m) ->
  heap (step c σ).2 !! l = Some (MutationObject m).
Proof.
  intros Hm. destruct c as [fn | fn | routes]; simpl.
  - rewrite lookup_insert_ne; [done | apply fresh_loc_ne; eauto].
  - rewrite lookup_insert_ne; [done | apply fresh_loc_ne; eauto].
  - by apply middleware_mutation.
Qed.

(** One call on a Query object: only a composition listing it rewrites its
    slot, and only the first prefix ever bound is emitted. *)
Lemma step_query c σ l f :
  heap σ !! l = Some (QueryObject f) ->
  exists f',
    heap (step c σ).2 !! l = Some (QueryObject f') /\
    fetcher f' = fetcher f /\
    bound_prefix f' =
      match bound_prefix f with
      | Some p => Some p
      | None =>
          match c with
          | CallCreateRouter routes =>
              fullKey (number_to_string (routerCount σ)) <$> first_name routes l
          | _ => None
          end
      end.
Proof.
  intros Hf. destruct c as [fn | fn | routes]; simpl.
  - exists f. rewrite lookup_insert_ne; [| apply fresh_loc_ne; eauto].
    by destruct (bound_prefix f).
  - exists f. rewrite lookup_insert_ne; [| apply fresh_loc_ne; eauto].
    by destruct (bound_prefix f).
  - by apply middleware_query.
Qed.

Lemma step_routerCount c σ :
  routerCount (step c σ).2 =
  match c with
  | CallCreateRouter _ => N.succ (routerCount σ)
  | _ => routerCount σ
  end.
Proof. by destruct c. Qed.

Lemma run_mutation calls σ l m :
  heap σ !! l = Some (MutationObject m) ->
  heap (run calls σ).2 !! l = Some (MutationObject m).
Proof.
  revert σ. induction calls as [|c calls IH]; intros σ Hm; [done |].
  rewrite run_cons. simpl. apply IH. by apply step_mutation.
Qed.

Lemma run_query calls σ l f :
  heap σ !! l = Some (QueryObject f) ->
  exists f',
    heap (run calls σ).2 !! l = Some (QueryObject f') /\
    fetcher f' = fetcher f /\
    bound_prefix f' =
      match bound_prefix f with
      | Some p => Some p
      | None => first_binding (compositions calls) (routerCount σ) l
      end.
Proof.
  revert σ f. induction calls as [|c calls IH]; intros σ f Hf.
  - exists f. by destruct (bound_prefix f).
  - rewrite run_cons. simpl.
    destruct (step_query c σ l f Hf) as (f1 & H1 & Hfn1 & Hp1).
    destruct (IH _ _ H1) as (f2 & H2 & Hfn2 & Hp2).
    exists f2. split; [done |]. split; [congruence |].
    rewrite Hp2, Hp1, step_routerCount.
    destruct (bound_prefix f); [done |].
    destruct c as [fn | fn | routes]; simpl; try done.
    by destruct (first_name routes l).
Qed.

Lemma run_routerCount calls σ :
  routerCount (run calls σ).2 =
  (routerCount σ + N.of_nat (length (compositions calls)))%N.
Proof.
  revert σ. induction calls as [|c calls IH]; intros σ.
  - simpl. lia.
  - rewrite run_cons. simpl. rewrite IH, step_routerCount.
    destruct c; simpl; lia.
Qed.

Lemma run_router_ids calls σ :
  router_ids (run calls σ).1 =
  (fun i => number_to_string (routerCount σ + N.of_nat i)) <$>
    seq 0 (length (compositions calls)).
Proof.
  revert σ. induction calls as [|c calls IH]; intros σ; [done |].
  rewrite run_cons. cbn [fst router_ids omap list_omap]. fold (router_ids (run calls (step c σ).2).1).
  rewrite IH, step_routerCount.
  destruct c as [fn | fn | routes]; simpl; try done.
  f_equal; [f_equal; lia |].
  rewrite <- fmap_S_seq, <- list_fmap_compose.
  apply list_fmap_ext. intros _ i _. simpl. f_equal. lia.
Qed.

(** In a sequence of definitions that lists no object twice, an object is
    first bound by the definition that lists it, under the name it has
    there. *)
Lemma first_binding_NoDup definitions count i routes key l :
  NoDup (concat (direct_refs <$> definitions)) ->
  definitions !! i = Some routes ->
  (key, Ref l) ∈ routes ->
  first_binding definitions count l =
  Some (fullKey (number_to_string (count + N.of_nat i)) key).
Proof.
  revert count i.
  induction definitions as [|d rest IH]; intros count i Hnd Hi Hin; [done |].
  simpl in Hnd. apply NoDup_app in Hnd as (Hd & Hdisj & Hrest).
  assert (l ∈ direct_refs routes) as Hl.
  { apply list_elem_of_omap. by exists (key, Ref l). }
  destruct i as [|i]; simpl in Hi.
  - injection Hi as ->. simpl.
    rewrite (first_name_NoDup _ key l Hd Hin). do 3 f_equal. lia.
  - simpl. rewrite first_name_None.
    + rewrite (IH (N.succ count) i Hrest Hi Hin). do 3 f_equal. lia.
    + intros Hld. apply (Hdisj l Hld).
      apply list_elem_of_In, in_concat. exists (direct_refs routes).
      split; apply list_elem_of_In; [| done].
      apply list_elem_of_fmap. exists routes. split; [done |].
      by apply list_elem_of_lookup_2 in Hi.
Qed.

(** ** Uniqueness of key prefixes *)

Lemma emitted_prefix_alloc (h : gmap loc object) o l :
  match o with QueryObject f => bound_prefix f = None | MutationObject _ => True end ->
  emitted_prefix (<[fresh (dom h) := o]> h) l = emitted_prefix h l.
Proof.
  intros Ho. unfold emitted_prefix.
  destruct (decide (fresh (dom h) = l)) as [<- | Hne].
  - rewrite lookup_insert_eq.
    assert (h !! fresh (dom h) = None) as ->.
    { apply not_elem_of_dom, is_fresh. }
    by destruct o.
  - by rewrite lookup_insert_ne.
Qed.

Lemma emitted_prefix_createRouter routes σ l :
  emitted_prefix (heap (createRouter routes σ).2) l =
  match emitted_prefix (heap σ) l with
  | Some p => Some p
  | None =>
      if has_useQuery (heap σ !! l)
      then fullKey (number_to_string (routerCount σ)) <$> first_name routes l
      else None
  end.
Proof.
  unfold emitted_prefix. simpl.
  pose proof (middleware_has_useQuery (number_to_string (routerCount σ))
                routes (heap σ) l) as Hkind.
  destruct (heap σ !! l) as [[f|m]|] eqn:E.
  - destruct (middleware_query (number_to_string (routerCount σ)) routes
                (heap σ) l f E) as (f' & -> & _ & ->).
    by destruct (bound_prefix f).
  - by rewrite (middleware_mutation _ routes (heap σ) l m E).
  - simpl in Hkind.
    by destruct (applyQueryKeyMiddleware _ _ _ !! l) as [[f'|m']|].
Qed.

Lemma step_object_kind c σ l :
  is_Some (heap σ !! l) ->
  is_Some (heap (step c σ).2 !! l) /\
  has_useQuery (heap (step c σ).2 !! l) = has_useQuery (heap σ !! l).
Proof.
  intros [o Ho]. destruct o as [f | m].
  - destruct (step_query c σ l f Ho) as (f' & E & _). rewrite E, Ho. eauto.
  - rewrite (step_mutation c σ l m Ho), Ho. eauto.
Qed.

Lemma run_object_kind calls σ l :
  is_Some (heap σ !! l) ->
  has_useQuery (heap (run calls σ).2 !! l) = has_useQuery (heap σ !! l).
Proof.
  revert σ. induction calls as [|c calls IH]; intros σ Hl; [done |].
  rewrite run_cons. simpl.
  destruct (step_object_kind c σ l Hl) as [Hsome Hkind].
  by rewrite IH, Hkind.
Qed.

(** The prefix a Query ends up with is the one of the first composition
    that lists it: before the object exists no composition lists it, and
    from its creation on [run_query] applies. *)
Lemma run_first_binding calls σ l :
  well_scoped calls σ ->
  emitted_prefix (heap σ) l = None ->
  has_useQuery (heap (run calls σ).2 !! l) = true ->
  emitted_prefix (heap (run calls σ).2) l =
  first_binding (compositions calls) (routerCount σ) l.
Proof.
  revert σ. induction calls as [|c calls IH]; intros σ Hscoped Hnone Hquery.
  - exact Hnone.
  - destruct Hscoped as [Hc Hscoped].
    destruct (heap σ !! l) as [[f|m]|] eqn:E.
    + destruct (run_query (c :: calls) σ l f E) as (f' & E' & _ & P).
      unfold emitted_prefix in Hnone |- *. rewrite E in Hnone. rewrite E', P.
      by rewrite Hnone.
    + rewrite (run_mutation (c :: calls) σ l m E) in Hquery. done.
    + rewrite run_cons in Hquery |- *. cbn [snd] in Hquery |- *.
      destruct c as [fn | fn | routes].
      * destruct (decide (fresh (dom (heap σ)) = l)) as [Hl | Hl].
        -- destruct (run_query calls (query fn σ).2 l (QueryClosure fn))
             as (f' & E' & _ & P).
           { simpl. rewrite Hl. apply lookup_insert_eq. }
           unfold emitted_prefix. cbn [step]. by rewrite E', P.
        -- apply (IH (query fn σ).2); [done | | done].
           simpl. by rewrite emitted_prefix_alloc.
      * destruct (decide (fresh (dom (heap σ)) = l)) as [Hl | Hl].
        -- cbn [step] in Hquery.
           rewrite (run_mutation calls (mutation fn σ).2 l (MutationClosure fn))
             in Hquery; [done |].
           simpl. rewrite Hl. apply lookup_insert_eq.
        -- apply (IH (mutation fn σ).2); [done | | done].
           simpl. by rewrite emitted_prefix_alloc.
      * assert (first_name routes l = None) as Hfirst.
        { apply first_name_None. intros Hin. apply Hc in Hin as [o Ho]. congruence. }
        cbn [step] in Hquery, Hscoped |- *.
        cbn [compositions omap list_omap first_binding]. fold (compositions calls).
        rewrite Hfirst.
        rewrite (IH (createRouter routes σ).2); [done | done | | done].
        rewrite emitted_prefix_createRouter, Hnone, E. done.
Qed.

(** C1.  Key-prefix uniqueness.  Take any program, in which operations
    are created and composed in any order, each definition listing only
    operations that exist, and each operation listed at most once over all
    compositions.  Two Query leaves that were not composed before the
    program, listed under the names [n1] and [n2] in its [i]-th and [j]-th
    composition, emit the prefixes [id_i/n1] and [id_j/n2], and these are
    different strings as soon as the compositions or the names differ. *)
Theorem key_prefix_uniqueness calls σ i j routes1 routes2 n1 n2 l1 l2
    args1 args2 options1 options2 :
  well_scoped calls σ ->
  emitted_prefix (heap σ) l1 = None ->
  emitted_prefix (heap σ) l2 = None ->
  compositions calls !! i = Some routes1 ->
  compositions calls !! j = Some routes2 ->
  (n1, Ref l1) ∈ routes1 ->
  (n2, Ref l2) ∈ routes2 ->
  NoDup (concat (direct_refs <$> compositions calls)) ->
  i <> j \/ n1 <> n2 ->
  let h := heap (run calls σ).2 in
  let id k := number_to_string (routerCount σ + N.of_nat k) in
  has_useQuery (h !! l1) = true ->
  has_useQuery (h !! l2) = true ->
  exists c1 c2,
    useQuery h (Ref l1) args1 options1 = Some c1 /\
    useQuery h (Ref l2) args2 options2 = Some c2 /\
    key_prefix (queryKey c1) = Some (VStr (fullKey (id i) n1)) /\
    key_prefix (queryKey c2) = Some (VStr (fullKey (id j) n2)) /\
    key_prefix (queryKey c1) <> key_prefix (queryKey c2).
Proof.
  intros Hscoped N1 N2 Hi Hj Hin1 Hin2 Hnd Hne h id Q1 Q2.
  pose proof (run_first_binding calls σ l1 Hscoped N1 Q1) as P1.
  pose proof (run_first_binding calls σ l2 Hscoped N2 Q2) as P2.
  rewrite (first_binding_NoDup _ _ i routes1 n1 l1 Hnd Hi Hin1) in P1.
  rewrite (first_binding_NoDup _ _ j routes2 n2 l2 Hnd Hj Hin2) in P2.
  unfold emitted_prefix in P1, P2. fold h in P1, P2.
  destruct (h !! l1) as [[f1|m1]|] eqn:E1; try done.
  destruct (h !! l2) as [[f2|m2]|] eqn:E2; try done.
  exists (call_useQuery f1 args1 options1 VUndefined),
         (call_useQuery f2 args2 options2 VUndefined).
  simpl. rewrite E1, E2, !call_useQuery_spec, P1, P2. simpl.
  repeat split; try done.
  intros [= E]. apply fullKey_inj in E as [E ->].
  destruct Hne as [Hne | Hne]; [| done]. apply Hne. lia.
Qed.

(** From module load: [query], [createRouter({fetchAll})], then again
    [query], [createRouter({fetchAll})].  The keys are ["0/fetchAll"] and
    ["1/fetchAll"]. *)
Lemma key_prefix_uniqueness_witness :
  let fn : RouteFunction := fun a => Resolved a in
  let calls := [CallQuery fn; CallCreateRouter [("fetchAll", Ref 0)];
                CallQuery fn; CallCreateRouter [("fetchAll", Ref 1)]] in
  let h := heap (run calls initial_state).2 in
  exists c1 c2,
    useQuery h (Ref 0) VNull None = Some c1 /\
    useQuery h (Ref 1) VNull None = Some c2 /\
    key_prefix (queryKey c1) = Some (VStr "0/fetchAll") /\
    key_prefix (queryKey c2) = Some (VStr "1/fetchAll") /\
    key_prefix (queryKey c1) <> key_prefix (queryKey c2).
Proof.
  intros fn calls h.
  apply (key_prefix_uniqueness calls initial_state 0 1
           [("fetchAll", Ref 0)] [("fetchAll", Ref 1)]
           "fetchAll" "fetchAll" 0 1 VNull VNull None None).
  - repeat split; intros l Hl;
      (apply elem_of_cons in Hl as [-> | Hl]; [by eexists | by apply elem_of_nil in Hl]).
  - reflexivity.
  - reflexivity.
  - reflexivity.
  - reflexivity.
  - apply list_elem_of_here.
  - apply list_elem_of_here.
  - apply (bool_decide_unpack _). reflexivity.
  - left. lia.
  - reflexivity.
  - reflexivity.
Defined.

(** ** Namespace ids *)

(** C2.  Namespace id assignment.  A call of [createRouter] returns an
    instance whose id is the decimal form of the counter before the call,
    and adds one to the counter.  Hence the ids of the [n] compositions of
    any program are the counter values [c, c+1, ..., c+n-1] in call order,
    pairwise distinct; from the initial state they are [0, 1, ..., n-1]. *)
Theorem namespace_ids_in_call_order calls σ :
  let n := length (compositions calls) in
  (forall routes,
     (createRouter routes σ).1 = Router routes (number_to_string (routerCount σ)) /\
     routerCount (createRouter routes σ).2 = N.succ (routerCount σ)) /\
  router_ids (run calls σ).1 =
    (fun i => number_to_string (routerCount σ + N.of_nat i)) <$> seq 0 n /\
  router_ids (run calls initial_state).1 =
    (fun i => number_to_string (N.of_nat i)) <$> seq 0 n /\
  NoDup (router_ids (run calls σ).1) /\
  routerCount (run calls σ).2 = (routerCount σ + N.of_nat n)%N.
Proof.
  intros n. split; [done |]. split; [apply run_router_ids |].
  split; [by rewrite run_router_ids |].
  split; [| apply run_routerCount].
  rewrite run_router_ids. apply NoDup_fmap_2; [| apply NoDup_seq].
  intros a b E. apply number_to_string_inj in E. lia.
Qed.

(** ** Prefixes once bound *)


(** ** Lifecycle callbacks *)

(** X3.  With callbacks that return, an attempt runs one branch: [onSuccess]
    then [onSettled(result, null)] and the result, or [onError] then
    [onSettled(undefined, error)] and the failure. *)
Lemma query_attempt_callbacks_return fn args options :
  callbacks_return options ->
  query_attempt fn args options =
  match fn args with
  | Resolved result =>
      (CallQueryFn args ::
       fired (slot options onSuccess) (CallOnSuccess result) ++
       fired (slot options onSettled) (CallOnSettled result VNull),
       inl result)
  | Rejected error =>
      (CallQueryFn args ::
       fired (slot options onError) (CallOnError error) ++
       fired (slot options onSettled) (CallOnSettled VUndefined error),
       inr error)
  end.
Proof.
  intros Hret. unfold query_attempt.
  destruct options as [[oe os ot rest]|]; simpl in *.
  - destruct Hret as (Hs & He & Ht).
    destruct (fn args) as [result | error]; simpl.
    + destruct os as [f|], ot as [g|]; simpl;
        rewrite ?(Hs _ eq_refl), ?(Ht _ eq_refl); reflexivity.
    + destruct oe as [f|], ot as [g|]; simpl;
        rewrite ?(He _ eq_refl), ?(Ht _ eq_refl); reflexivity.
  - by destruct (fn args).
Qed.

(** C4.  Lifecycle multiplexing, when [onSettled] throws.  Let the fetcher
    resolve, [onSuccess] return if present, and [onSettled(result, null)]
    throw [e].  The success branch has then run [onSuccess] and
    [onSettled]; the exception lands in the [catch], which runs [onError]
    and calls [onSettled] a second time, with [(undefined, e)]; the attempt
    fails although the fetcher succeeded. *)
Theorem throwing_onSettled_runs_both_branches fn args options result settled e :
  fn args = Resolved result ->
  (forall f, slot options onSuccess = Some f -> f result = Returns) ->
  slot options onSettled = Some settled ->
  settled result VNull = Throws e ->
  (forall f, slot options onError = Some f -> f e = Returns) ->
  query_attempt fn args options =
  (CallQueryFn args ::
   fired (slot options onSuccess) (CallOnSuccess result) ++
   [CallOnSettled result VNull] ++
   fired (slot options onError) (CallOnError e) ++
   [CallOnSettled VUndefined e],
   inr (match settled VUndefined e with
        | Returns => e
        | Throws e' => e'
        end)).
Proof.
  intros Hfn Hs Hslot Hthrow He. unfold query_attempt. rewrite Hfn.
  destruct options as [[oe os ot rest]|]; [| done]. simpl in *.
  subst ot. simpl.
  destruct os as [f|]; simpl; rewrite ?(Hs _ eq_refl); simpl;
    rewrite Hthrow; simpl;
    (destruct oe as [g|]; simpl; rewrite ?(He _ eq_refl); simpl;
     by destruct (settled VUndefined e)).
Qed.

(** A fetcher that resolves with [VStr "rows"], and
    [onSettled: () => { throw "boom" }]. *)
Lemma throwing_onSettled_runs_both_branches_witness :
  let options :=
    Some {| onError := Some (fun _ => Returns);
            onSuccess := Some (fun _ => Returns);
            onSettled := Some (fun _ _ => Throws (VStr "boom"));
            query_rest := [] |} in
  query_attempt (fun _ => Resolved (VStr "rows")) VNull options =
  ([CallQueryFn VNull; CallOnSuccess (VStr "rows");
    CallOnSettled (VStr "rows") VNull;
    CallOnError (VStr "boom"); CallOnSettled VUndefined (VStr "boom")],
   inr (VStr "boom")).
Proof.
  intros options.
  apply (throwing_onSettled_runs_both_branches
           (fun _ => Resolved (VStr "rows")) VNull options (VStr "rows")
           (fun _ _ => Throws (VStr "boom")) (VStr "boom")).
  - reflexivity.
  - intros f [= <-]. reflexivity.
  - reflexivity.
  - reflexivity.
  - intros f [= <-]. reflexivity.
Defined.

(** ** The context tree *)

Lemma own_get_put key node own k :
  own_get (put key node own) k =
  if decide (key = k) then Some node else own_get own k.
Proof.
  induction own as [|[k' n'] rest IH]; simpl.
  - by repeat case_decide.
  - destruct (decide (k' = key)) as [-> | Hne]; simpl.
    + by repeat case_decide; subst.
    + rewrite IH. repeat case_decide; congruence.
Qed.

(** An assignment is read back under its key and leaves the others. *)
Lemma context_get_assign context k node key :
  context_get (assign context (k, node)) key =
  if decide (k = key) then Some node else context_get context key.
Proof.
  unfold context_get, assign.
  destruct (decide (k = "__proto__")) as [-> | Hk]; simpl.
  - repeat case_decide; congruence.
  - rewrite own_get_put. repeat case_decide; congruence.
Qed.

Lemma context_get_foldl entries context key :
  context_get (foldl assign context entries) key =
  match last_assigned entries key with
  | Some node => Some node
  | None => context_get context key
  end.
Proof.
  revert context. induction entries as [|[k node] rest IH]; intros context; [done |].
  change (foldl assign context ((k, node) :: rest))
    with (foldl assign (assign context (k, node)) rest).
  rewrite IH, context_get_assign. simpl.
  destruct (last_assigned rest key); [done |]. by case_decide.
Qed.


Lemma context_get_createContext_last h routes routerId key :
  context_get (createContext h routes routerId) key =
  last_assigned (assignments h routes routerId) key.
Proof.
  unfold createContext. rewrite context_get_foldl.
  destruct (last_assigned _ key); [done |].
  unfold context_get. by case_decide.
Qed.

Lemma assignments_cons h k v rest routerId :
  assignments h ((k, v) :: rest) routerId =
  match context_entry h routerId k v with
  | Some node => (k, node) :: assignments h rest routerId
  | None => assignments h rest routerId
  end.
Proof.
  unfold assignments. cbn [omap list_omap].
  by destruct (context_entry h routerId k v).
Qed.

Lemma last_assigned_elem_of entries key node :
  last_assigned entries key = Some node -> (key, node) ∈ entries.
Proof.
  induction entries as [|[k n] rest IH]; simpl; [done |].
  destruct (last_assigned rest key) as [later|].
  - intros [= ->]. apply list_elem_of_further. by apply IH.
  - case_decide as Hk; [| done]. intros [= ->]. subst k. apply list_elem_of_here.
Qed.

(** What is assigned under a name is the value made for an entry of that
    name in the definition. *)
Lemma assignments_elem_of h routes routerId k node :
  (k, node) ∈ assignments h routes routerId ->
  exists v, (k, v) ∈ routes /\ context_entry h routerId k v = Some node.
Proof.
  intros ([k' v] & Hin & Hv)%list_elem_of_omap.
  destruct (context_entry h routerId k' v) as [n|] eqn:E; [| done].
  injection Hv as -> ->. by exists v.
Qed.

Lemma context_entry_router h routerId key routes' routerId' :
  context_entry h routerId key (Router routes' routerId') =
  context_node <$> useContext h (Router routes' routerId').
Proof.
  cbn [context_entry]. unfold useContext, createContext.
  cbn [fmap option_fmap option_map]. do 3 f_equal. unfold assignments.
  induction routes' as [|[k v] rest IH]; [done |].
  cbn [omap list_omap]. rewrite <- IH.
  by destruct (context_entry h routerId' k v).
Qed.

(** The names of a context are names of the definition. *)
Lemma createContext_names h routes routerId key :
  key ∉ routes.*1 -> context_get (createContext h routes routerId) key = None.
Proof.
  intros Hk. rewrite context_get_createContext_last.
  destruct (last_assigned _ key) as [node|] eqn:E; [| done].
  apply last_assigned_elem_of, assignments_elem_of in E as (v & Hin & _).
  destruct Hk. apply list_elem_of_fmap. by exists (key, v).
Qed.

Lemma context_get_createContext h routes routerId key :
  NoDup routes.*1 ->
  context_get (createContext h routes routerId) key =
  get routes key ≫= context_entry h routerId key.
Proof.
  rewrite context_get_createContext_last.
  induction routes as [|[k v] rest IH]; intros Hnd; [done |].
  rewrite fmap_cons in Hnd. apply NoDup_cons in Hnd as [Hk Hnd]. simpl in Hk.
  specialize (IH Hnd). simpl get.
  assert (last_assigned (assignments h ((k, v) :: rest) routerId) key =
          match last_assigned (assignments h rest routerId) key with
          | Some later => Some later
          | None => if decide (k = key) then context_entry h routerId k v else None
          end) as ->.
  { rewrite assignments_cons.
    destruct (context_entry h routerId k v) as [node|]; simpl; [done |].
    destruct (last_assigned _ key); [done |]. by case_decide. }
  destruct (decide (k = key)) as [-> | Hne].
  - pose proof (createContext_names h rest routerId key Hk) as Hnone.
    rewrite context_get_createContext_last in Hnone. by rewrite Hnone.
  - rewrite IH. by destruct (get rest key ≫= context_entry h routerId key).
Qed.


(** An accessor found under a name is the one over [routerId/name]. *)
Lemma context_get_accessors h routes routerId key baseKey :
  context_get (createContext h routes routerId) key = Some (Accessors baseKey) ->
  baseKey = fullKey routerId key.
Proof.
  rewrite context_get_createContext_last.
  intros (v & _ & E)%last_assigned_elem_of%assignments_elem_of.
  destruct v as [l | routes' routerId']; simpl in E.
  - destruct (h !! l) as [[f|m]|]; congruence.
  - unfold context_node in E. congruence.
Qed.

(** What a context holds under a name is what a read of that name
    answers, and it sits in an own property, or for [__proto__] in the
    prototype. *)
Lemma context_get_read h routes routerId key node :
  let context := createContext h routes routerId in
  context_get context key = Some node ->
  context_read context key = ReadNode node /\
  (key <> "__proto__" -> own_get (own_entries context) key = Some node) /\
  (key = "__proto__" -> prototype context = Some node).
Proof.
  intros context. unfold context_get, context_read.
  case_decide as Hk; intros E.
  - rewrite E. by repeat split.
  - simpl. rewrite E. by repeat split.
Qed.




(** ** Composing a leaf a second time *)

(** C3.  Re-composition.  Compose a Query fresh from [query] as [key1]
    into one router and then as [key2] into the next.  Invoked through
    the second router it still emits the prefix [id1/key1] of the first
    composition, while the context of the second router addresses the
    leaf under [id2/key2], a different string. *)
Theorem recomposition_keeps_first_prefix routes1 routes2 σ key1 key2 l fn
    args options :
  heap σ !! l = Some (QueryObject (QueryClosure fn)) ->
  NoDup (direct_refs routes1) ->
  get routes1 key1 = Some (Ref l) ->
  NoDup routes2.*1 ->
  get routes2 key2 = Some (Ref l) ->
  key2 <> "useContext" ->
  let σ1 := (createRouter routes1 σ).2 in
  let routerB := (createRouter routes2 σ1).1 in
  let h := heap (createRouter routes2 σ1).2 in
  let prefix1 := fullKey (number_to_string (routerCount σ)) key1 in
  let prefix2 := fullKey (number_to_string (N.succ (routerCount σ))) key2 in
  (queryKey <$> (router_get routerB key2 ≫= fun leaf =>
                 useQuery h leaf args options))
    = Some (VArray [VStr prefix1; args]) /\
  (useContext h routerB ≫= fun context => context_get context key2)
    = Some (Accessors prefix2) /\
  prefix1 <> prefix2.
Proof.
  intros Hl Hnd1 Hget1 Hnd2 Hget2 Hne σ1 routerB h prefix1 prefix2.
  destruct (middleware_query (number_to_string (routerCount σ)) routes1
              (heap σ) l _ Hl) as (f1 & E1 & _ & P1).
  simpl in P1.
  rewrite (first_name_NoDup routes1 key1 l Hnd1 (get_elem_of _ _ _ Hget1)) in P1.
  destruct (middleware_query (number_to_string (N.succ (routerCount σ))) routes2
              (heap σ1) l _ E1) as (f2 & E2 & _ & P2).
  rewrite P1 in P2.
  assert (h !! l = Some (QueryObject f2)) as Eh by exact E2.
  split; [| split].
  - subst routerB. simpl. rewrite decide_False by done. rewrite Hget2. simpl.
    fold h. rewrite Eh. simpl. by rewrite call_useQuery_spec, P2.
  - subst routerB. cbn [fst createRouter useContext mbind option_bind].
    rewrite context_get_createContext by done.
    rewrite Hget2. simpl. by rewrite Eh.
  - intros E. apply fullKey_inj in E as [E _]. lia.
Qed.

(** [query(fn)] composed as [a] into router 0 and as [b] into router 1:
    router 1 emits [["0/a", args]] and its context addresses ["1/b"]. *)
Lemma recomposition_keeps_first_prefix_witness :
  let fn : RouteFunction := fun a => Resolved a in
  let σ := (query fn initial_state).2 in
  let σ1 := (createRouter [("a", Ref 0)] σ).2 in
  let routerB := (createRouter [("b", Ref 0)] σ1).1 in
  let h := heap (createRouter [("b", Ref 0)] σ1).2 in
  (queryKey <$> (router_get routerB "b" ≫= fun leaf =>
                 useQuery h leaf (VNum 1) None))
    = Some (VArray [VStr "0/a"; VNum 1]) /\
  (useContext h routerB ≫= fun context => context_get context "b")
    = Some (Accessors "1/b") /\
  "0/a" <> "1/b".
Proof.
  intros fn σ σ1 routerB h.
  apply (recomposition_keeps_first_prefix [("a", Ref 0)] [("b", Ref 0)] σ
           "a" "b" 0 fn (VNum 1) None).
  - reflexivity.
  - apply (bool_decide_unpack _). reflexivity.
  - reflexivity.
  - apply (bool_decide_unpack _). reflexivity.
  - reflexivity.
  - discriminate.
Defined.

(** ** What the middleware leaves alone *)



(** ** Cache accessors *)

(** C7.  setData/getData round trip.  On a query client that stores what
    is written, [setData(args, value)] followed by [getData(args)] through
    the accessor of one leaf returns [value]: the two calls address the
    identical key [[baseKey, args]], and they are calls on the client only,
    the accessor holding nothing of the leaf but its base key. *)
Theorem setData_getData_round_trip {cache} `{QueryClient cache}
    h routes routerId key baseKey (s : cache) args data :
  stores_data cache ->
  context_get (createContext h routes routerId) key = Some (Accessors baseKey) ->
  let write := setData baseKey args data in
  let read := getData baseKey args in
  call_key write = VArray [VStr (fullKey routerId key); args] /\
  call_key read = call_key write /\
  (perform read (perform write s).2).1 = data /\
  (perform read (perform write s).2).2 = (perform write s).2.
Proof.
  intros Hstore Hacc write read.
  apply context_get_accessors in Hacc as ->.
  repeat split. simpl. apply Hstore.
Qed.

Lemma entries_client_stores_data : stores_data (list (jsvalue * jsvalue)).
Proof.
  intros s key data. simpl.
  assert (forall a, jsvalue_eqb a a = true) as Hrefl; [| by rewrite Hrefl].
  fix IH 1. intros [| | b | n | x | elems]; simpl;
    try done; try by apply bool_decide_eq_true.
  induction elems as [|e elems IHe]; [done |].
  by rewrite IH, IHe.
Qed.

(** The leaf [all] of router 0, on the reference cache. *)
Lemma setData_getData_round_trip_witness :
  let fn : RouteFunction := fun a => Resolved a in
  let h := heap (run [CallQuery fn] initial_state).2 in
  let write := setData "0/all" (VNum 7) (VStr "cached") in
  let read := getData "0/all" (VNum 7) in
  call_key write = VArray [VStr "0/all"; VNum 7] /\
  call_key read = call_key write /\
  (perform read (perform write []).2).1 = VStr "cached" /\
  (perform read (perform write []).2).2 = (perform write []).2.
Proof.
  intros fn h.
  apply (setData_getData_round_trip h [("all", Ref 0)] "0" "all" "0/all"
           [] (VNum 7) (VStr "cached")).
  - exact entries_client_stores_data.
  - reflexivity.
Defined.

(** ** Mutations *)

(** C8.  Mutation passthrough.  Whatever the program does after
    [mutation(fn)], invoking the Mutation hands the engine's mutation hook
    the caller's options and a function that settles exactly as [fn] does
    on the variables, result or failure; the configuration carries no
    query key, the object has no [useQuery] to emit one, and the context
    has no entry for it. *)
Theorem mutation_passthrough fn σ calls options :
  let h := heap (run calls (mutation fn σ).2).2 in
  let m := (mutation fn σ).1 in
  exists config,
    useMutation h m options = Some config /\
    (forall variables, mutationFn config variables = fn variables) /\
    mutation_spread config = options /\
    (forall args o, useQuery h m args o = None) /\
    (forall routerId key, context_entry h routerId key m = None).
Proof.
  intros h m.
  assert (h !! fresh (dom (heap σ)) = Some (MutationObject (MutationClosure fn))) as E.
  { apply run_mutation. simpl. apply lookup_insert_eq. }
  exists (call_useMutation (MutationClosure fn) options).
  subst m. simpl. rewrite E. repeat split.
  intros variables. unfold mutation_attempt. by destruct (fn variables).
Qed.

(** ** Aliasing between a definition and its instance *)

(** C9.  Composition aliases its input.  Under every name other than
    [useContext] the instance returned by [createRouter] holds the very
    value the definition holds, so an invocation reaches the same
    rewritten slot through either and emits the same configuration.  For
    a Query leaf that comes fresh from [query] and that the definition
    lists under no earlier name, the key emitted through both is
    [[routerId/name, args]]. *)
Theorem composition_aliases_input routes σ key args options :
  key <> "useContext" ->
  let router := (createRouter routes σ).1 in
  let h := heap (createRouter routes σ).2 in
  router_get router key = get routes key /\
  (router_get router key ≫= fun leaf => useQuery h leaf args options) =
  (get routes key ≫= fun leaf => useQuery h leaf args options) /\
  forall l fn,
    get routes key = Some (Ref l) ->
    heap σ !! l = Some (QueryObject (QueryClosure fn)) ->
    first_name routes l = Some key ->
    emits_namespaced_key routes σ key args options.
Proof.
  intros Hne router h.
  assert (router_get router key = get routes key) as Hsame.
  { subst router. simpl. by rewrite decide_False. }
  split; [exact Hsame |]. split; [by rewrite Hsame |].
  intros l fn Hget Hl Hfirst.
  destruct (middleware_query (number_to_string (routerCount σ)) routes (heap σ) l _ Hl)
    as (f' & E & _ & P).
  simpl in P. rewrite Hfirst in P. simpl in P.
  assert (h !! l = Some (QueryObject f')) as Eh by exact E.
  unfold emits_namespaced_key. fold router h. rewrite Hsame, Hget. simpl.
  rewrite Eh. simpl. by rewrite call_useQuery_spec, P.
Qed.

(** [{fetchAll: query(fn)}] composed from the initial state. *)
Lemma composition_aliases_input_witness :
  let fn : RouteFunction := fun a => Resolved a in
  let σ := (query fn initial_state).2 in
  let routes := [("fetchAll", Ref 0)] in
  let router := (createRouter routes σ).1 in
  let h := heap (createRouter routes σ).2 in
  router_get router "fetchAll" = Some (Ref 0) /\
  queryKey <$> (get routes "fetchAll" ≫= fun leaf => useQuery h leaf VNull None)
    = Some (VArray [VStr "0/fetchAll"; VNull]) /\
  queryKey <$> (router_get router "fetchAll" ≫= fun leaf => useQuery h leaf VNull None)
    = Some (VArray [VStr "0/fetchAll"; VNull]).
Proof.
  intros fn σ routes router h.
  destruct (composition_aliases_input routes σ "fetchAll" VNull None)
    as (Hsame & _ & Hkey).
  - discriminate.
  - split; [exact Hsame |].
    apply (Hkey 0 fn); reflexivity.
Defined.

(** Three definitions on which the key is not the namespaced one:
    [{a: q, b: q}], where the leaf emits ["0/a"] through [b] as well;
    [{b: q}] composed after [{a: q}], where it goes on emitting ["0/a"];
    and [{useContext: q}], where the instance does not hold the leaf. *)
Lemma composition_aliases_input_counterexample :
  let fn : RouteFunction := fun a => Resolved a in
  let σ := (query fn initial_state).2 in
  let twice := [("a", Ref 0); ("b", Ref 0)] in
  let again := [("b", Ref 0)] in
  let σ1 := (createRouter [("a", Ref 0)] σ).2 in
  let reserved := [("useContext", Ref 0)] in
  (get twice "b" = Some (Ref 0) /\
   queryKey <$> useQuery (heap (createRouter twice σ).2) (Ref 0) VNull None
     = Some (VArray [VStr "0/a"; VNull]) /\
   ~ emits_namespaced_key twice σ "b" VNull None) /\
  (get again "b" = Some (Ref 0) /\
   queryKey <$> useQuery (heap (createRouter again σ1).2) (Ref 0) VNull None
     = Some (VArray [VStr "0/a"; VNull]) /\
   ~ emits_namespaced_key again σ1 "b" VNull None) /\
  (get reserved "useContext" = Some (Ref 0) /\
   router_get (createRouter reserved σ).1 "useContext" = None /\
   ~ emits_namespaced_key reserved σ "useContext" VNull None).
Proof.
  intros fn σ twice again σ1 reserved. split; [| split].
  - split; [reflexivity |]. split; [reflexivity |].
    intros [Hdef _]. discriminate Hdef.
  - split; [reflexivity |]. split; [reflexivity |].
    intros [Hdef _]. discriminate Hdef.
  - split; [reflexivity |]. split; [reflexivity |].
    intros [_ Hinst]. discriminate Hinst.
Qed.

(** ** Queries outside any composition *)

Lemma first_binding_None definitions count l :
  (forall routes, routes ∈ definitions -> l ∉ direct_refs routes) ->
  first_binding definitions count l = None.
Proof.
  revert count. induction definitions as [|d rest IH]; intros count Hl; [done |].
  simpl. rewrite first_name_None by (apply Hl, list_elem_of_here).
  apply IH. intros routes Hin. by apply Hl, list_elem_of_further.
Qed.

Lemma not_composed_by calls l routes :
  ~ composed_by calls (Ref l) -> routes ∈ compositions calls ->
  l ∉ direct_refs routes.
Proof.
  intros Hnot Hin Hl. apply Hnot.
  apply list_elem_of_omap in Hl as ([key v] & Hentry & Hv).
  destruct v as [l' | rs rid]; [| done]. injection Hv as ->.
  by exists routes, key.
Qed.

(** C10.  Un-composed Query key.  A Query made by [query] that no
    composition of the program lists emits, on every public invocation,
    the key [[undefined, args]]; two such Queries invoked with equal
    arguments therefore emit the identical key. *)
Theorem uncomposed_query_key fn σ calls args options :
  let q := (query fn σ).1 in
  let h := heap (run calls (query fn σ).2).2 in
  ~ composed_by calls q ->
  (queryKey <$> useQuery h q args options = Some (VArray [VUndefined; args])) /\
  forall fn' options',
    let q' := (query fn' (run calls (query fn σ).2).2).1 in
    let h' := heap (query fn' (run calls (query fn σ).2).2).2 in
    queryKey <$> useQuery h' q' args options' =
    queryKey <$> useQuery h' q args options.
Proof.
  intros q h Hnot.
  set (l := fresh (dom (heap σ))) in *.
  destruct (run_query calls (query fn σ).2 l (QueryClosure fn)) as (f' & E & _ & P).
  { simpl. apply lookup_insert_eq. }
  simpl in P. rewrite first_binding_None in P
    by (intros routes Hin; by apply (not_composed_by calls)).
  assert (queryKey <$> useQuery h q args options = Some (VArray [VUndefined; args])) as Hq.
  { change q with (Ref l). unfold useQuery. subst h. rewrite E.
    simpl. by rewrite call_useQuery_spec, P. }
  split; [exact Hq |].
  intros fn' options' q' h'.
  assert (h' !! l = h !! l) as Hl.
  { subst h'. unfold query at 1. cbn [snd heap].
    rewrite lookup_insert_ne; [done |].
    apply fresh_loc_ne. rewrite E. eauto. }
  transitivity (Some (VArray [VUndefined; args])).
  - subst q' h'. unfold query at 1 3, useQuery. cbn [fst snd heap].
    by rewrite lookup_insert_eq.
  - rewrite <- Hq. change q with (Ref l). unfold useQuery. by rewrite Hl.
Qed.

(** A query created before a router that does not list it. *)
Lemma uncomposed_query_key_witness :
  let fn : RouteFunction := fun a => Resolved a in
  let calls := [CallQuery fn; CallCreateRouter [("all", Ref 1)]] in
  let h := heap (run calls (query fn initial_state).2).2 in
  queryKey <$> useQuery h (Ref 0) (VNum 3) None = Some (VArray [VUndefined; VNum 3]).
Proof.
  intros fn calls h.
  apply (uncomposed_query_key fn initial_state calls (VNum 3) None).
  intros (routes & key & Hin & Hentry).
  apply list_elem_of_omap in Hin as (c & Hc & E).
  apply elem_of_cons in Hc as [-> | Hc]; [done |].
  apply elem_of_cons in Hc as [-> | Hc]; [| by apply elem_of_nil in Hc].
  injection E as <-.
  apply elem_of_cons in Hentry as [[=] | Hentry]. by apply elem_of_nil in Hentry.
Defined.

(** * Further properties *)

(** ** One attempt of the fetcher body (index.ts 29-40) *)

(** X1.  In one attempt the user function is called exactly once, first,
    on the arguments of the invocation, whatever the options are and
    whatever the callbacks do: no callback failure makes the body call it
    again. *)
Theorem attempt_calls_fetcher_once fn args options :
  exists rest,
    (query_attempt fn args options).1 = CallQueryFn args :: rest /\
    forallb (fun ev => negb (is_fetch ev)) rest = true.
Proof.
  unfold query_attempt.
  destruct options as [[oe os ot other]|]; simpl;
    destruct (fn args) as [result | error]; simpl;
    repeat match goal with
    | |- context [match ?o with Some _ => _ | None => _ end] => destruct o; simpl
    | |- context [of_completion ?c] => destruct c; simpl
    end;
    eexists; (split; [reflexivity | reflexivity]).
Qed.

(** X2.  The outcome of an attempt never hides the fetcher's: an attempt
    that resolves resolves with the value the fetcher resolved with, and an
    attempt whose fetcher failed fails. *)
Theorem attempt_outcome_faithful fn args options :
  match fn args, (query_attempt fn args options).2 with
  | Resolved result, inl returned => returned = result
  | Resolved _, inr _ => True
  | Rejected _, inl _ => False
  | Rejected _, inr _ => True
  end.
Proof.
  unfold query_attempt.
  destruct options as [[oe os ot other]|]; simpl;
    destruct (fn args) as [result | error]; simpl;
    repeat match goal with
    | |- context [match ?o with Some _ => _ | None => _ end] => destruct o; simpl
    | |- context [of_completion ?c] => destruct c; simpl
    end;
    done.
Qed.

(** A fetcher that fails with ["offline"], and all three callbacks. *)
Lemma query_attempt_callbacks_return_witness :
  let options :=
    Some {| onError := Some (fun _ => Returns);
            onSuccess := Some (fun _ => Returns);
            onSettled := Some (fun _ _ => Returns);
            query_rest := [] |} in
  query_attempt (fun _ => Rejected (VStr "offline")) VNull options =
  ([CallQueryFn VNull; CallOnError (VStr "offline");
    CallOnSettled VUndefined (VStr "offline")],
   inr (VStr "offline")).
Proof.
  intros options.
  apply (query_attempt_callbacks_return
           (fun _ => Rejected (VStr "offline")) VNull options).
  repeat split; intros f [= <-]; reflexivity.
Defined.

(** X4.  When [onSuccess] throws, [onSettled(result, null)] is skipped:
    the exception is handled as a failure of the fetch, [onError] and
    [onSettled(undefined, e)] run, and the attempt fails with [e]. *)
Theorem throwing_onSuccess_fails_the_attempt fn args options result success e :
  fn args = Resolved result ->
  slot options onSuccess = Some success ->
  success result = Throws e ->
  (forall f, slot options onError = Some f -> f e = Returns) ->
  (forall f, slot options onSettled = Some f -> f VUndefined e = Returns) ->
  query_attempt fn args options =
  (CallQueryFn args :: CallOnSuccess result ::
   fired (slot options onError) (CallOnError e) ++
   fired (slot options onSettled) (CallOnSettled VUndefined e),
   inr e).
Proof.
  intros Hfn Hslot Hthrow He Ht. unfold query_attempt. rewrite Hfn.
  destruct options as [[oe os ot other]|]; [| done]. simpl in *.
  subst os. simpl. rewrite Hthrow. simpl.
  destruct oe as [f|], ot as [g|]; simpl;
    rewrite ?(He _ eq_refl), ?(Ht _ eq_refl); reflexivity.
Qed.

(** [onSuccess: () => { throw "bad row" }] on a fetcher that resolves. *)
Lemma throwing_onSuccess_fails_the_attempt_witness :
  let options :=
    Some {| onError := Some (fun _ => Returns);
            onSuccess := Some (fun _ => Throws (VStr "bad row"));
            onSettled := Some (fun _ _ => Returns);
            query_rest := [] |} in
  query_attempt (fun _ => Resolved (VNum 4)) VNull options =
  ([CallQueryFn VNull; CallOnSuccess (VNum 4);
    CallOnError (VStr "bad row"); CallOnSettled VUndefined (VStr "bad row")],
   inr (VStr "bad row")).
Proof.
  intros options.
  apply (throwing_onSuccess_fails_the_attempt
           (fun _ => Resolved (VNum 4)) VNull options (VNum 4)
           (fun _ => Throws (VStr "bad row")) (VStr "bad row")).
  - reflexivity.
  - reflexivity.
  - reflexivity.
  - intros f [= <-]. reflexivity.
  - intros f [= <-]. reflexivity.
Defined.

(** X5.  When the fetcher fails and [onError] throws, [onSettled] is not
    called at all, and the attempt fails with the exception of the
    callback, not with the failure of the fetch. *)
Theorem throwing_onError_skips_onSettled fn args options error handler e :
  fn args = Rejected error ->
  slot options onError = Some handler ->
  handler error = Throws e ->
  query_attempt fn args options =
  ([CallQueryFn args; CallOnError error], inr e).
Proof.
  intros Hfn Hslot Hthrow. unfold query_attempt. rewrite Hfn.
  destruct options as [[oe os ot other]|]; [| done]. simpl in *.
  subst oe. simpl. by rewrite Hthrow.
Qed.

(** [onError: () => { throw "logger down" }] on a fetcher that fails. *)
Lemma throwing_onError_skips_onSettled_witness :
  let options :=
    Some {| onError := Some (fun _ => Throws (VStr "logger down"));
            onSuccess := None;
            onSettled := Some (fun _ _ => Returns);
            query_rest := [] |} in
  query_attempt (fun _ => Rejected (VStr "offline")) VNull options =
  ([CallQueryFn VNull; CallOnError (VStr "offline")], inr (VStr "logger down")).
Proof.
  intros options.
  apply (throwing_onError_skips_onSettled
           (fun _ => Rejected (VStr "offline")) VNull options (VStr "offline")
           (fun _ => Throws (VStr "logger down")) (VStr "logger down"));
    reflexivity.
Defined.

(** ** Queries across compositions (index.ts 19-43, 85-103) *)

(** X6.  Stable keys.  Once a Query binds a prefix, nothing the program
    does afterwards changes what an invocation hands to the engine: the
    same key, the same fetcher body, the same options. *)
Theorem bound_query_is_stable σ l f p calls args options :
  heap σ !! l = Some (QueryObject f) ->
  bound_prefix f = Some p ->
  useQuery (heap (run calls σ).2) (Ref l) args options =
  useQuery (heap σ) (Ref l) args options.
Proof.
  intros Hf Hp.
  destruct (run_query calls σ l f Hf) as (f' & E & Hfn & P).
  rewrite Hp in P. simpl. rewrite E, Hf, !call_useQuery_spec.
  by rewrite Hfn, P, Hp.
Qed.

(** A leaf composed once, then listed again by two further routers. *)
Lemma bound_query_is_stable_witness :
  let fn : RouteFunction := fun a => Resolved a in
  let σ := (run [CallQuery fn; CallCreateRouter [("all", Ref 0)]] initial_state).2 in
  let calls := [CallCreateRouter [("copy", Ref 0)]; CallQuery fn;
                CallCreateRouter [("again", Ref 0); ("other", Ref 1)]] in
  useQuery (heap (run calls σ).2) (Ref 0) (VNum 2) None =
  useQuery (heap σ) (Ref 0) (VNum 2) None.
Proof.
  intros fn σ calls.
  apply (bound_query_is_stable σ 0 (KeyMiddleware (QueryClosure fn) "0/all") "0/all");
    reflexivity.
Defined.

(** X7.  Composition touches the key only.  Whatever the program does
    after [query(fn)], an invocation hands the engine a key whose suffix is
    the argument, the fetcher body around [fn] itself, and the caller's
    options unchanged. *)
Theorem composition_changes_prefix_only fn σ calls args options :
  let q := (query fn σ).1 in
  let h := heap (run calls (query fn σ).2).2 in
  exists config prefix,
    useQuery h q args options = Some config /\
    queryKey config = VArray [prefix; args] /\
    queryFn config = query_attempt fn args options /\
    query_spread config = options.
Proof.
  intros q h.
  destruct (run_query calls (query fn σ).2 (fresh (dom (heap σ))) (QueryClosure fn))
    as (f' & E & Hfn & _).
  { simpl. apply lookup_insert_eq. }
  exists (call_useQuery f' args options VUndefined),
         (from_option VStr VUndefined (bound_prefix f')).
  split.
  - change q with (Ref (fresh (dom (heap σ)))). unfold useQuery. subst h.
    by rewrite E.
  - rewrite call_useQuery_spec. simpl. by rewrite Hfn.
Qed.

(** X8.  The third argument.  A caller may pass a key as third argument of
    [useQuery]: a Query that binds no prefix uses it as the prefix of the
    emitted key, a Query that binds one ignores it. *)
Theorem third_argument_only_before_composition h l f args options k :
  h !! l = Some (QueryObject f) ->
  queryKey <$> useQuery_with_key h (Ref l) args options k =
  Some (VArray [match bound_prefix f with
                | Some p => VStr p
                | None => k
                end; args]) /\
  (is_Some (bound_prefix f) ->
   useQuery_with_key h (Ref l) args options k = useQuery h (Ref l) args options).
Proof.
  intros Hf. simpl. rewrite Hf. simpl. rewrite !call_useQuery_spec.
  split; [by destruct (bound_prefix f) |].
  intros [p Hp]. by rewrite Hp.
Qed.

(** Before and after composing [{all: q}], with the key ["mine"]. *)
Lemma third_argument_only_before_composition_witness :
  let fn : RouteFunction := fun a => Resolved a in
  let σ := (query fn initial_state).2 in
  let σ' := (createRouter [("all", Ref 0)] σ).2 in
  queryKey <$> useQuery_with_key (heap σ) (Ref 0) VNull None (VStr "mine") =
    Some (VArray [VStr "mine"; VNull]) /\
  queryKey <$> useQuery_with_key (heap σ') (Ref 0) VNull None (VStr "mine") =
    Some (VArray [VStr "0/all"; VNull]).
Proof.
  intros fn σ σ'. split.
  - apply (third_argument_only_before_composition (heap σ) 0 (QueryClosure fn)).
    reflexivity.
  - apply (third_argument_only_before_composition (heap σ') 0
             (KeyMiddleware (QueryClosure fn) "0/all")).
    reflexivity.
Defined.

(** X9.  One object under several names.  A Query fresh from [query] that
    a definition lists more than once emits, through every one of its
    names, the prefix of the first name that lists it; the context still
    gives each name an accessor over that name. *)
Theorem aliased_leaf_emits_first_name routes σ first key l fn args options :
  heap σ !! l = Some (QueryObject (QueryClosure fn)) ->
  first_name routes l = Some first ->
  NoDup routes.*1 ->
  get routes key = Some (Ref l) ->
  let routerId := number_to_string (routerCount σ) in
  let h := heap (createRouter routes σ).2 in
  (queryKey <$> (get routes key ≫= fun leaf => useQuery h leaf args options))
    = Some (VArray [VStr (fullKey routerId first); args]) /\
  context_get (createContext h routes routerId) key
    = Some (Accessors (fullKey routerId key)).
Proof.
  intros Hl Hfirst Hnd Hget routerId h.
  destruct (middleware_query routerId routes (heap σ) l _ Hl) as (f' & E & _ & P).
  simpl in P. rewrite Hfirst in P. simpl in P.
  assert (h !! l = Some (QueryObject f')) as Eh by exact E.
  split.
  - rewrite Hget. simpl. rewrite Eh. simpl. by rewrite call_useQuery_spec, P.
  - rewrite context_get_createContext by done. rewrite Hget. simpl. by rewrite Eh.
Qed.

(** [createRouter({a: q, b: q})]: through [b] the leaf emits ["0/a"], and
    the context reads [b] under ["0/b"]. *)
Lemma aliased_leaf_emits_first_name_witness :
  let fn : RouteFunction := fun a => Resolved a in
  let σ := (query fn initial_state).2 in
  let routes := [("a", Ref 0); ("b", Ref 0)] in
  let h := heap (createRouter routes σ).2 in
  (queryKey <$> (get routes "b" ≫= fun leaf => useQuery h leaf VNull None))
    = Some (VArray [VStr "0/a"; VNull]) /\
  context_get (createContext h routes "0") "b" = Some (Accessors "0/b").
Proof.
  intros fn σ routes h.
  apply (aliased_leaf_emits_first_name routes σ "a" "b" 0 fn VNull None).
  - reflexivity.
  - reflexivity.
  - apply (bool_decide_unpack _). reflexivity.
  - reflexivity.
Defined.

(** X10.  A definition without Query leaves.  Composing a definition whose
    direct entries are Mutations and Router Instances only, as an
    application router over sub-routers is, writes to no object at all. *)
Theorem composing_routers_writes_nothing routes σ :
  (forall l, l ∈ direct_refs routes -> has_useQuery (heap σ !! l) = false) ->
  heap (createRouter routes σ).2 = heap σ.
Proof.
  simpl. unfold applyQueryKeyMiddleware. generalize (number_to_string (routerCount σ)).
  intros routerId. generalize (heap σ). intros h.
  induction routes as [|[key v] rest IH]; intros Hno; [done |].
  simpl. destruct v as [l | nested nestedId]; simpl.
  - assert (has_useQuery (h !! l) = false) as Hl by (apply Hno; set_solver).
    destruct (h !! l) as [[f|m]|]; try done; apply IH; intros l' Hl';
      apply Hno; set_solver.
  - apply IH. intros l' Hl'. by apply Hno.
Qed.

(** An application router over a sub-router and a mutation. *)
Lemma composing_routers_writes_nothing_witness :
  let fn : RouteFunction := fun a => Resolved a in
  let σ := (run [CallQuery fn; CallMutation fn;
                 CallCreateRouter [("all", Ref 0)]] initial_state).2 in
  let routes := [("posts", Router [("all", Ref 0)] "0"); ("addPost", Ref 1)] in
  heap (createRouter routes σ).2 = heap σ.
Proof.
  intros fn σ routes.
  apply (composing_routers_writes_nothing routes σ).
  intros l Hl. apply elem_of_cons in Hl as [-> | Hl]; [reflexivity |].
  by apply elem_of_nil in Hl.
Defined.

(** ** Context accessors against the leaves (index.ts 60-81, 85-103) *)

(** X11.  The accessor of a leaf addresses the leaf's cache entry.  For a
    Query fresh from [query], in a definition that lists no object twice,
    the key that [getData(args)] and [setData(args, data)] of the context
    address is the key that invoking the leaf with [args] emits; on a cache
    that stores what is written, data set through the accessor is what the
    cache holds under the leaf's key. *)
Theorem accessor_addresses_leaf_key {cache} `{QueryClient cache}
    routes σ key l fn args options data (s : cache) :
  heap σ !! l = Some (QueryObject (QueryClosure fn)) ->
  NoDup (direct_refs routes) ->
  NoDup routes.*1 ->
  get routes key = Some (Ref l) ->
  stores_data cache ->
  let router := (createRouter routes σ).1 in
  let h := heap (createRouter routes σ).2 in
  exists baseKey config,
    (useContext h router ≫= fun context => context_get context key)
      = Some (Accessors baseKey) /\
    useQuery h (Ref l) args options = Some config /\
    call_key (getData baseKey args) = queryKey config /\
    call_key (setData baseKey args data) = queryKey config /\
    client_get (perform (setData baseKey args data) s).2 (queryKey config) = data.
Proof.
  intros Hl Hrefs Hnames Hget Hstore router h.
  destruct (middleware_query (number_to_string (routerCount σ)) routes (heap σ) l _ Hl)
    as (f' & E & _ & P).
  simpl in P.
  rewrite (first_name_NoDup routes key l Hrefs (get_elem_of _ _ _ Hget)) in P.
  assert (h !! l = Some (QueryObject f')) as Eh by exact E.
  exists (fullKey (number_to_string (routerCount σ)) key),
         (call_useQuery f' args options VUndefined).
  split; [| split; [| split; [| split]]].
  - subst router. cbn [fst createRouter useContext mbind option_bind].
    fold h. rewrite context_get_createContext by done.
    rewrite Hget. simpl. by rewrite Eh.
  - simpl. by rewrite Eh.
  - by rewrite call_useQuery_spec, P.
  - by rewrite call_useQuery_spec, P.
  - rewrite call_useQuery_spec, P. simpl. apply Hstore.
Qed.

(** [{all: query(fn)}] composed first, on the reference cache. *)
Lemma accessor_addresses_leaf_key_witness :
  let fn : RouteFunction := fun a => Resolved a in
  let σ := (query fn initial_state).2 in
  let routes := [("all", Ref 0)] in
  let router := (createRouter routes σ).1 in
  let h := heap (createRouter routes σ).2 in
  exists baseKey config,
    (useContext h router ≫= fun context => context_get context "all")
      = Some (Accessors baseKey) /\
    useQuery h (Ref 0) (VNum 5) None = Some config /\
    call_key (getData baseKey (VNum 5)) = queryKey config /\
    call_key (setData baseKey (VNum 5) (VStr "rows")) = queryKey config /\
    client_get (perform (setData baseKey (VNum 5) (VStr "rows")) []).2
      (queryKey config) = VStr "rows".
Proof.
  intros fn σ routes router h.
  apply (accessor_addresses_leaf_key routes σ "all" 0 fn (VNum 5) None
           (VStr "rows") []).
  - reflexivity.
  - apply (bool_decide_unpack _). reflexivity.
  - apply (bool_decide_unpack _). reflexivity.
  - reflexivity.
  - exact entries_client_stores_data.
Defined.

Lemma jsvalue_eqb_eq a b : jsvalue_eqb a b = true -> a = b.
Proof.
  revert a b. fix IH 1.
  intros [| | x | x | x | xs] [| | y | y | y | ys]; simpl; try done;
    try (intros E; apply bool_decide_eq_true in E; by subst).
  intros E. f_equal. revert ys E.
  induction xs as [|x xs IHxs]; intros [|y ys] E; try done.
  apply andb_true_iff in E as [E1 E2].
  by rewrite (IH x y E1), (IHxs ys E2).
Qed.

Lemma entries_client_keeps_others : keeps_others (list (jsvalue * jsvalue)).
Proof.
  intros s key key' data Hne. simpl.
  destruct (jsvalue_eqb key key') eqn:E; [| done].
  by apply jsvalue_eqb_eq in E.
Qed.

(** X12.  Accessors do not interfere.  Take two Query leaves, each listed
    directly by a definition, under [n1] by the one composed with counter
    value [c1] and under [n2] by the one composed with [c2].  Reading
    [n1] and [n2] in the two contexts answers their accessors, and when
    the counter values or the names differ these have different base
    keys, whatever the names are; so on a cache whose writes leave other
    keys alone, [setData] through one never changes what [getData]
    through the other returns. *)
Theorem accessors_do_not_interfere {cache} `{QueryClient cache}
    h1 h2 routes1 routes2 c1 c2 n1 n2 l1 l2 a1 a2 data (s : cache) :
  NoDup routes1.*1 ->
  NoDup routes2.*1 ->
  get routes1 n1 = Some (Ref l1) ->
  get routes2 n2 = Some (Ref l2) ->
  has_useQuery (h1 !! l1) = true ->
  has_useQuery (h2 !! l2) = true ->
  c1 <> c2 \/ n1 <> n2 ->
  keeps_others cache ->
  exists b1 b2,
    context_read (createContext h1 routes1 (number_to_string c1)) n1
      = ReadNode (Accessors b1) /\
    context_read (createContext h2 routes2 (number_to_string c2)) n2
      = ReadNode (Accessors b2) /\
    b1 <> b2 /\
    (perform (getData b2 a2) (perform (setData b1 a1 data) s).2).1 =
    (perform (getData b2 a2) s).1.
Proof.
  intros Hnd1 Hnd2 G1 G2 Q1 Q2 Hne Hkeeps.
  assert (forall h routes c n l,
            NoDup routes.*1 -> get routes n = Some (Ref l) ->
            has_useQuery (h !! l) = true ->
            context_read (createContext h routes (number_to_string c)) n =
            ReadNode (Accessors (fullKey (number_to_string c) n))) as Hread.
  { intros h routes c n l Hnd Hget Hq.
    apply context_get_read. rewrite context_get_createContext by done.
    rewrite Hget. simpl. by destruct (h !! l) as [[f|m]|]. }
  exists (fullKey (number_to_string c1) n1), (fullKey (number_to_string c2) n2).
  split; [by apply (Hread h1 routes1 c1 n1 l1) |].
  split; [by apply (Hread h2 routes2 c2 n2 l2) |].
  assert (fullKey (number_to_string c1) n1 <> fullKey (number_to_string c2) n2) as Hb.
  { intros E. apply fullKey_inj in E as [-> ->]. by destruct Hne. }
  split; [exact Hb |]. simpl. apply Hkeeps. congruence.
Qed.

(** Router 0 lists a leaf as [all]; router 1 lists another as [all] and
    router 0 as [__proto__], so that its context inherits from the context
    of router 0. *)
Lemma accessors_do_not_interfere_witness :
  let fn : RouteFunction := fun a => Resolved a in
  let h := heap (run [CallQuery fn; CallQuery fn] initial_state).2 in
  let routes0 := [("all", Ref 0)] in
  let routes1 := [("__proto__", Router routes0 "0"); ("all", Ref 1)] in
  let s := [(VArray [VStr "1/all"; VNull], VStr "kept")] in
  exists b1 b2,
    context_read (createContext h routes0 "0") "all" = ReadNode (Accessors b1) /\
    context_read (createContext h routes1 "1") "all" = ReadNode (Accessors b2) /\
    b1 <> b2 /\
    (perform (getData b2 VNull) (perform (setData b1 VNull (VStr "new")) s).2).1 =
    (perform (getData b2 VNull) s).1.
Proof.
  intros fn h routes0 routes1 s.
  apply (accessors_do_not_interfere h h routes0 routes1 0%N 1%N "all" "all" 0 1
           VNull VNull (VStr "new") s).
  - apply (bool_decide_unpack _). reflexivity.
  - apply (bool_decide_unpack _). reflexivity.
  - reflexivity.
  - reflexivity.
  - reflexivity.
  - reflexivity.
  - left. discriminate.
  - exact entries_client_keeps_others.
Defined.

(** X13.  An entry called [useContext].  The instance returned by
    [createRouter] carries its context function under that name, so a leaf
    the definition lists as [useContext] cannot be reached through the
    instance; the middleware and the context generator, which read the
    definition, still namespace it and give it an accessor. *)
Theorem useContext_entry_is_shadowed routes σ l fn args options :
  heap σ !! l = Some (QueryObject (QueryClosure fn)) ->
  NoDup (direct_refs routes) ->
  NoDup routes.*1 ->
  get routes "useContext" = Some (Ref l) ->
  let routerId := number_to_string (routerCount σ) in
  let router := (createRouter routes σ).1 in
  let h := heap (createRouter routes σ).2 in
  router_get router "useContext" = None /\
  queryKey <$> useQuery h (Ref l) args options
    = Some (VArray [VStr (fullKey routerId "useContext"); args]) /\
  (useContext h router ≫= fun context => context_get context "useContext")
    = Some (Accessors (fullKey routerId "useContext")).
Proof.
  intros Hl Hrefs Hnames Hget routerId router h.
  destruct (middleware_query routerId routes (heap σ) l _ Hl) as (f' & E & _ & P).
  simpl in P.
  rewrite (first_name_NoDup routes _ l Hrefs (get_elem_of _ _ _ Hget)) in P.
  assert (h !! l = Some (QueryObject f')) as Eh by exact E.
  split; [done |]. split.
  - simpl. rewrite Eh. simpl. by rewrite call_useQuery_spec, P.
  - subst router. cbn [fst createRouter useContext mbind option_bind].
    fold h routerId. rewrite context_get_createContext by done.
    rewrite Hget. simpl. by rewrite Eh.
Qed.

(** [createRouter({useContext: query(fn)})] *)
Lemma useContext_entry_is_shadowed_witness :
  let fn : RouteFunction := fun a => Resolved a in
  let σ := (query fn initial_state).2 in
  let routes := [("useContext", Ref 0)] in
  let router := (createRouter routes σ).1 in
  let h := heap (createRouter routes σ).2 in
  router_get router "useContext" = None /\
  queryKey <$> useQuery h (Ref 0) VNull None
    = Some (VArray [VStr "0/useContext"; VNull]) /\
  (useContext h router ≫= fun context => context_get context "useContext")
    = Some (Accessors "0/useContext").
Proof.
  intros fn σ routes router h.
  apply (useContext_entry_is_shadowed routes σ 0 fn VNull None).
  - reflexivity.
  - apply (bool_decide_unpack _). reflexivity.
  - apply (bool_decide_unpack _). reflexivity.
  - reflexivity.
Defined.

(** ** Prefixes over whole programs (index.ts 85-103) *)

Lemma first_name_elem_of routes l key :
  first_name routes l = Some key -> (key, Ref l) ∈ routes.
Proof.
  induction routes as [|[k [l'|nested nestedId]] rest IH]; simpl; [done | |].
  - case_decide as E.
    + intros [= ->]. subst l'. apply list_elem_of_here.
    + intros Hrest. apply list_elem_of_further. by apply IH.
  - intros Hrest. apply list_elem_of_further. by apply IH.
Qed.

Lemma distinct_names_one_value (routes : Routes) key v1 v2 :
  NoDup routes.*1 -> (key, v1) ∈ routes -> (key, v2) ∈ routes -> v1 = v2.
Proof.
  induction routes as [|[k v] rest IH]; intros Hnd H1 H2; [by apply elem_of_nil in H1 |].
  rewrite fmap_cons in Hnd. apply NoDup_cons in Hnd as [Hk Hnd]. simpl in Hk.
  assert (forall v', (key, v') ∈ rest -> key ∈ rest.*1) as Hin.
  { intros v' Hv'. apply list_elem_of_fmap. by exists (key, v'). }
  apply elem_of_cons in H1 as [E1 | H1]; apply elem_of_cons in H2 as [E2 | H2].
  - congruence.
  - injection E1 as -> _. destruct Hk. by apply (Hin v2).
  - injection E2 as -> _. destruct Hk. by apply (Hin v1).
  - by apply IH.
Qed.

Lemma first_name_inj routes l1 l2 key :
  NoDup routes.*1 ->
  first_name routes l1 = Some key -> first_name routes l2 = Some key -> l1 = l2.
Proof.
  intros Hnd H1%first_name_elem_of H2%first_name_elem_of.
  assert (Ref l1 = Ref l2) as [= ->]; [| done].
  by apply (distinct_names_one_value routes key).
Qed.

(** One call keeps the invariant, if the definition it composes has
    pairwise different names. *)
Lemma step_prefixes_unique c σ :
  match c with CallCreateRouter routes => NoDup routes.*1 | _ => True end ->
  prefixes_unique σ -> prefixes_unique (step c σ).2.
Proof.
  intros Hnames [Hold Hinj]. destruct c as [fn | fn | routes].
  - split.
    + intros l p. simpl. rewrite emitted_prefix_alloc by done. apply Hold.
    + intros l1 l2 p. simpl. rewrite !emitted_prefix_alloc by done. apply Hinj.
  - split.
    + intros l p. simpl. rewrite emitted_prefix_alloc by done. apply Hold.
    + intros l1 l2 p. simpl. rewrite !emitted_prefix_alloc by done. apply Hinj.
  - assert (forall l p,
              emitted_prefix (heap (step (CallCreateRouter routes) σ).2) l = Some p ->
              emitted_prefix (heap σ) l = Some p \/
              (emitted_prefix (heap σ) l = None /\
               exists key, first_name routes l = Some key /\
                 p = fullKey (number_to_string (routerCount σ)) key)) as Hcases.
    { intros l p. cbn [step]. rewrite emitted_prefix_createRouter.
      destruct (emitted_prefix (heap σ) l) as [q|]; [by left |].
      destruct (has_useQuery (heap σ !! l)); [| done].
      destruct (first_name routes l) as [key|]; [| done].
      intros [= <-]. right. eauto. }
    split.
    + intros l p [Hp | (_ & key & _ & ->)]%Hcases.
      * destruct (Hold l p Hp) as (c & key & -> & Hc).
        exists c, key. split; [done |]. simpl. lia.
      * exists (routerCount σ), key. split; [done |]. simpl. lia.
    + intros l1 l2 p [H1 | (N1 & k1 & F1 & E1)]%Hcases
                     [H2 | (N2 & k2 & F2 & E2)]%Hcases.
      * by apply (Hinj l1 l2 p).
      * destruct (Hold l1 p H1) as (c & key & -> & Hc).
        apply fullKey_inj in E2 as [-> _]. lia.
      * destruct (Hold l2 p H2) as (c & key & -> & Hc).
        apply fullKey_inj in E1 as [-> _]. lia.
      * subst p. apply fullKey_inj in E2 as [_ ->].
        by apply (first_name_inj routes l1 l2 k2).
Qed.

Lemma run_prefixes_unique calls σ :
  distinct_names calls -> prefixes_unique σ -> prefixes_unique (run calls σ).2.
Proof.
  revert σ. induction calls as [|c calls IH]; intros σ Hnames Hinv; [done |].
  rewrite run_cons. simpl. apply IH.
  - intros routes Hin. apply Hnames.
    destruct c; simpl; try done. by apply list_elem_of_further.
  - apply step_prefixes_unique; [| done].
    destruct c as [fn | fn | routes]; try done.
    apply Hnames. simpl. apply list_elem_of_here.
Qed.

(** X14.  No two Queries share a namespace.  In the state any program
    reaches from module load, two invocations that emit the same string
    prefix are invocations of one and the same Query object, however often
    leaves were composed and under however many names; and every emitted
    prefix is [c/name] for a counter value [c] already used. *)
Theorem distinct_queries_never_share_a_prefix calls l1 l2 args1 args2
    options1 options2 config1 config2 p :
  distinct_names calls ->
  let σ := (run calls initial_state).2 in
  useQuery (heap σ) (Ref l1) args1 options1 = Some config1 ->
  useQuery (heap σ) (Ref l2) args2 options2 = Some config2 ->
  key_prefix (queryKey config1) = Some (VStr p) ->
  key_prefix (queryKey config2) = Some (VStr p) ->
  l1 = l2 /\
  exists c key, p = fullKey (number_to_string c) key /\ (c < routerCount σ)%N.
Proof.
  intros Hnames σ H1 H2 P1 P2.
  assert (prefixes_unique σ) as [Hold Hinj].
  { apply run_prefixes_unique; [done |]. split.
    - intros l q. unfold emitted_prefix. simpl. by rewrite lookup_empty.
    - intros l l' q. unfold emitted_prefix. simpl. by rewrite lookup_empty. }
  assert (forall l args options config,
            useQuery (heap σ) (Ref l) args options = Some config ->
            key_prefix (queryKey config) = Some (VStr p) ->
            emitted_prefix (heap σ) l = Some p) as Hemit.
  { intros l args options config. unfold emitted_prefix. simpl.
    destruct (heap σ !! l) as [[f|m]|]; try done.
    intros [= <-]. rewrite call_useQuery_spec. simpl.
    destruct (bound_prefix f); simpl; congruence. }
  apply Hemit in H1; [| done]. apply Hemit in H2; [| done].
  split; [by apply (Hinj l1 l2 p) | by apply (Hold l1)].
Qed.

(** Two queries composed, the first of them twice. *)
Lemma distinct_queries_never_share_a_prefix_witness :
  let fn : RouteFunction := fun a => Resolved a in
  let calls := [CallQuery fn; CallQuery fn;
                CallCreateRouter [("all", Ref 0)];
                CallCreateRouter [("all", Ref 1); ("copy", Ref 0)]] in
  let σ := (run calls initial_state).2 in
  0 = 0 /\
  exists c key, "0/all" = fullKey (number_to_string c) key /\ (c < routerCount σ)%N.
Proof.
  intros fn calls σ.
  apply (distinct_queries_never_share_a_prefix calls 0 0 VNull (VNum 1) None None
           (call_useQuery (KeyMiddleware (KeyMiddleware (QueryClosure fn) "0/all") "1/copy")
              VNull None VUndefined)
           (call_useQuery (KeyMiddleware (KeyMiddleware (QueryClosure fn) "0/all") "1/copy")
              (VNum 1) None VUndefined)
           "0/all").
  - intros routes Hin.
    apply elem_of_cons in Hin as [-> | Hin];
      [apply (bool_decide_unpack _); reflexivity |].
    apply elem_of_cons in Hin as [-> | Hin];
      [apply (bool_decide_unpack _); reflexivity |].
    by apply elem_of_nil in Hin.
  - reflexivity.
  - reflexivity.
  - reflexivity.
  - reflexivity.
Defined.

(** ** Nested contexts (index.ts 60-81) *)

Lemma router_at_app routes routerId path1 routes1 routerId1 path2 routes2 routerId2 :
  router_at routes routerId path1 routes1 routerId1 ->
  router_at routes1 routerId1 path2 routes2 routerId2 ->
  router_at routes routerId (path1 ++ path2) routes2 routerId2.
Proof.
  intros H1 H2. induction H1 as [| ? ? k nested nestedId path ? ? Hin _ IH
                                   | ? ? nested nestedId path ? ? Hin _ IH].
  - exact H2.
  - simpl. eapply router_at_step; [exact Hin | by apply IH].
  - eapply router_at_inherited; [exact Hin | by apply IH].
Qed.

Lemma context_get_origin h routes routerId k node :
  context_get (createContext h routes routerId) k = Some node ->
  exists v, (k, v) ∈ routes /\ context_entry h routerId k v = Some node.
Proof.
  rewrite context_get_createContext_last.
  by intros Hin%last_assigned_elem_of%assignments_elem_of.
Qed.

(** A node found along the prototype chain of a context was assigned by
    the router of the context or by one it inherits from. *)
Lemma read_node_origin h p :
  forall routes routerId k node,
    p = context_node (createContext h routes routerId) ->
    k <> "__proto__" ->
    read_node p k = ReadNode node ->
    exists routes' routerId' v,
      router_at routes routerId [] routes' routerId' /\
      (k, v) ∈ routes' /\
      context_entry h routerId' k v = Some node.
Proof.
  revert p. fix IH 1.
  intros [baseKey | own proto] routes routerId k node Hp Hk Hread; [done |].
  injection Hp as Hown Hproto. simpl in Hread.
  destruct (own_get own k) as [found|] eqn:Hfound.
  - injection Hread as ->.
    destruct (context_get_origin h routes routerId k node) as (v & Hin & Hv).
    { unfold context_get. rewrite decide_False by done. by rewrite <- Hown. }
    exists routes, routerId, v. split; [constructor | done].
  - destruct proto as [p'|]; [| done].
    destruct (context_get_origin h routes routerId "__proto__" p') as (v & Hin & Hv).
    { unfold context_get. by rewrite decide_True. }
    destruct v as [l | nested nestedId].
    + simpl in Hv. destruct (h !! l) as [[f|m]|]; try done.
      injection Hv as <-. simpl in Hread. by case_decide.
    + rewrite context_entry_router in Hv. simpl in Hv. injection Hv as Hp'.
      destruct (IH p' nested nestedId k node (eq_sym Hp') Hk Hread)
        as (routes' & routerId' & v' & Hat & Hin' & Hv').
      exists routes', routerId', v'. split; [| done].
      by apply (router_at_inherited routes routerId nested nestedId).
Qed.

Lemma context_read_origin h routes routerId k node :
  context_read (createContext h routes routerId) k = ReadNode node ->
  exists routes' routerId' v,
    router_at routes routerId [] routes' routerId' /\
    (k, v) ∈ routes' /\
    context_entry h routerId' k v = Some node.
Proof.
  unfold context_read. case_decide as Hk.
  - subst k. destruct (prototype (createContext h routes routerId)) as [p|] eqn:Hp;
      [| done].
    intros [= ->].
    destruct (context_get_origin h routes routerId "__proto__" node) as (v & Hin & Hv).
    { unfold context_get. by rewrite decide_True. }
    exists routes, routerId, v. split; [constructor | done].
  - by apply read_node_origin.
Qed.

Lemma context_at_cons context k k' rest :
  context_at context (k :: k' :: rest) =
  match context_read context k with
  | ReadNode (SubContext own proto) =>
      context_at {| own_entries := own; prototype := proto |} (k' :: rest)
  | _ => ReadOther
  end.
Proof. reflexivity. Qed.

(** X15.  Accessors deep in a context.  An accessor reached in the context
    of a router by reading a path of names, [context.k1. ... .kn.name], is
    the accessor of a Query leaf that a nested router lists directly
    under [name], and its base key is made of the id of that router.  The
    router is the one the names [k1 ... kn] lead to, where between the
    names the way may pass to a nested router listed as [__proto__], from
    whose context the context above inherits. *)
Theorem accessor_at_path h path routes routerId name baseKey :
  context_at (createContext h routes routerId) (path ++ [name])
    = ReadNode (Accessors baseKey) ->
  exists routes' routerId' l,
    router_at routes routerId path routes' routerId' /\
    (name, Ref l) ∈ routes' /\
    has_useQuery (h !! l) = true /\
    baseKey = fullKey routerId' name.
Proof.
  revert routes routerId.
  induction path as [|k path IH]; intros routes routerId Hat.
  - simpl in Hat.
    apply context_read_origin in Hat as (routes' & routerId' & v & Hpath & Hin & Hv).
    destruct v as [l | nested nestedId]; simpl in Hv; [| done].
    exists routes', routerId', l. split; [done |]. split; [done |].
    destruct (h !! l) as [[f|m]|]; [| done | done].
    split; [done | congruence].
  - change ((k :: path) ++ [name]) with (k :: (path ++ [name])) in Hat.
    destruct (path ++ [name]) as [|k' rest] eqn:Hrest.
    { by destruct path. }
    rewrite context_at_cons in Hat.
    destruct (context_read (createContext h routes routerId) k)
      as [[b | own proto] | |] eqn:Hk; try done.
    apply context_read_origin in Hk as (routes1 & routerId1 & v & Hpath1 & Hin & Hv).
    destruct v as [l | nested nestedId].
    { simpl in Hv. by destruct (h !! l) as [[f|m]|]. }
    rewrite context_entry_router in Hv. simpl in Hv. injection Hv as Hown Hproto.
    assert ({| own_entries := own; prototype := proto |} =
            createContext h nested nestedId) as Hctx.
    { destruct (createContext h nested nestedId). simpl in *. by subst. }
    rewrite Hctx in Hat.
    destruct (IH nested nestedId Hat) as (routes' & routerId' & l & Hpath & Hl & Hq & Hb).
    exists routes', routerId', l. split; [| done].
    change (k :: path) with ([] ++ k :: path).
    apply (router_at_app _ _ _ routes1 routerId1); [exact Hpath1 |].
    by apply (router_at_step routes1 routerId1 k nested nestedId).
Qed.

(** [context.posts.all] of an application router that lists the router
    [posts] by name and the router [users] as [__proto__]; and
    [context.names], which it inherits from the context of [users]. *)
Lemma accessor_at_path_witness :
  let fn : RouteFunction := fun a => Resolved a in
  let h := heap (run [CallQuery fn; CallCreateRouter [("all", Ref 0)];
                      CallQuery fn; CallCreateRouter [("names", Ref 1)]]
                     initial_state).2 in
  let app := [("posts", Router [("all", Ref 0)] "0");
              ("__proto__", Router [("names", Ref 1)] "1")] in
  (exists routes' routerId' l,
     router_at app "2" ["posts"] routes' routerId' /\
     ("all", Ref l) ∈ routes' /\
     has_useQuery (h !! l) = true /\
     "0/all" = fullKey routerId' "all") /\
  (exists routes' routerId' l,
     router_at app "2" [] routes' routerId' /\
     ("names", Ref l) ∈ routes' /\
     has_useQuery (h !! l) = true /\
     "1/names" = fullKey routerId' "names").
Proof.
  intros fn h app. split.
  - apply (accessor_at_path h ["posts"] app "2" "all" "0/all"). reflexivity.
  - apply (accessor_at_path h [] app "2" "names" "1/names"). reflexivity.
Defined.

(** ** Filters and contexts over time (index.ts 60-81) *)

(** X16.  Filters address the leaf's key.  For a Query fresh from [query]
    in a definition that lists no object twice, the filter that
    [invalidate(filters)] and [cancel(filters)] hand to the client has as
    key the two-element key that invoking the leaf on [filters.queryKey]
    emits, with [undefined] for the suffix when no filter or no key is
    given, and keeps the caller's other filter fields. *)
Theorem filters_address_leaf_key routes σ key l fn filters options :
  heap σ !! l = Some (QueryObject (QueryClosure fn)) ->
  NoDup (direct_refs routes) ->
  NoDup routes.*1 ->
  get routes key = Some (Ref l) ->
  let router := (createRouter routes σ).1 in
  let h := heap (createRouter routes σ).2 in
  let suffix := from_option filter_queryKey VUndefined filters in
  exists baseKey config,
    (useContext h router ≫= fun context => context_get context key)
      = Some (Accessors baseKey) /\
    useQuery h (Ref l) suffix options = Some config /\
    invalidate baseKey filters =
      invalidateQueries {| filter_queryKey := queryKey config;
                           filter_rest := from_option filter_rest [] filters |} /\
    cancel baseKey filters =
      cancelQueries {| filter_queryKey := queryKey config;
                       filter_rest := from_option filter_rest [] filters |}.
Proof.
  intros Hl Hrefs Hnames Hget router h suffix.
  destruct (middleware_query (number_to_string (routerCount σ)) routes (heap σ) l _ Hl)
    as (f' & E & _ & P).
  simpl in P.
  rewrite (first_name_NoDup routes key l Hrefs (get_elem_of _ _ _ Hget)) in P.
  assert (h !! l = Some (QueryObject f')) as Eh by exact E.
  exists (fullKey (number_to_string (routerCount σ)) key),
         (call_useQuery f' suffix options VUndefined).
  split; [| split].
  - subst router. cbn [fst createRouter useContext mbind option_bind].
    fold h. rewrite context_get_createContext by done.
    rewrite Hget. simpl. by rewrite Eh.
  - simpl. by rewrite Eh.
  - rewrite call_useQuery_spec, P. subst suffix. by destruct filters.
Qed.

(** [context.all.invalidate()] after [createRouter({all: query(fn)})]: the
    filter key is [["0/all", undefined]]. *)
Lemma filters_address_leaf_key_witness :
  let fn : RouteFunction := fun a => Resolved a in
  let σ := (query fn initial_state).2 in
  let routes := [("all", Ref 0)] in
  let router := (createRouter routes σ).1 in
  let h := heap (createRouter routes σ).2 in
  exists baseKey config,
    (useContext h router ≫= fun context => context_get context "all")
      = Some (Accessors baseKey) /\
    useQuery h (Ref 0) VUndefined None = Some config /\
    invalidate baseKey None =
      invalidateQueries {| filter_queryKey := queryKey config; filter_rest := [] |} /\
    cancel baseKey None =
      cancelQueries {| filter_queryKey := queryKey config; filter_rest := [] |}.
Proof.
  intros fn σ routes router h.
  apply (filters_address_leaf_key routes σ "all" 0 fn None None).
  - reflexivity.
  - apply (bool_decide_unpack _). reflexivity.
  - apply (bool_decide_unpack _). reflexivity.
  - reflexivity.
Defined.

Lemma context_entry_ext_leaves h h' routerId key value :
  (forall l, l ∈ leaves value -> has_useQuery (h' !! l) = has_useQuery (h !! l)) ->
  context_entry h' routerId key value = context_entry h routerId key value.
Proof.
  revert routerId key value. fix IH 3.
  intros routerId key [l | routes' routerId'] Hkind.
  - simpl. specialize (Hkind l (list_elem_of_here _ _)).
    destruct (h' !! l) as [[f'|m']|], (h !! l) as [[f|m]|]; simpl in Hkind;
      congruence.
  - rewrite !context_entry_router. simpl. unfold createContext. do 3 f_equal.
    simpl in Hkind. revert Hkind.
    induction routes' as [|[k v] rest IHrest]; intros Hkind; [done |].
    rewrite !assignments_cons, IH, IHrest; [done | |].
    + intros l Hl. apply Hkind, elem_of_app. by right.
    + intros l Hl. apply Hkind, elem_of_app. by left.
Qed.

(** X17.  Contexts do not age.  The context of a Router Instance whose
    operations exist is the same after any further program: composing the
    instance or its leaves into other routers, or creating new operations,
    changes no accessor of it. *)
Theorem context_is_stable calls σ router :
  (forall l, l ∈ leaves router -> is_Some (heap σ !! l)) ->
  useContext (heap (run calls σ).2) router = useContext (heap σ) router.
Proof.
  intros Hleaves. destruct router as [l | routes routerId]; [done |].
  assert (context_entry (heap (run calls σ).2) routerId routerId (Router routes routerId) =
          context_entry (heap σ) routerId routerId (Router routes routerId)) as E.
  { apply context_entry_ext_leaves. intros l Hl. by apply run_object_kind, Hleaves. }
  rewrite !context_entry_router in E. simpl in E |- *. injection E as Hown Hproto.
  f_equal.
  destruct (createContext (heap (run calls σ).2) routes routerId),
           (createContext (heap σ) routes routerId).
  simpl in *. by subst.
Qed.

(** The router [posts], before and after it is nested in an application
    router and its leaf is composed again. *)
Lemma context_is_stable_witness :
  let fn : RouteFunction := fun a => Resolved a in
  let σ := (run [CallQuery fn; CallMutation fn;
                 CallCreateRouter [("all", Ref 0); ("addPost", Ref 1)]]
                initial_state).2 in
  let posts := Router [("all", Ref 0); ("addPost", Ref 1)] "0" in
  let calls := [CallCreateRouter [("posts", posts); ("again", Ref 0)]; CallQuery fn] in
  useContext (heap (run calls σ).2) posts = useContext (heap σ) posts.
Proof.
  intros fn σ posts calls.
  apply (context_is_stable calls σ posts).
  intros l Hl.
  apply elem_of_cons in Hl as [-> | Hl]; [by eexists |].
  apply elem_of_cons in Hl as [-> | Hl]; [by eexists |].
  by apply elem_of_nil in Hl.
Defined.
